(** * arkos4clone: the DTB selector, the SSH-over-OTG script and the ADC key script

    A shallow embedding of the repository's three programs and the proofs of
    the properties its specification states about them.

    - [GoRuntime]: the parts of the Go standard library that
      [dtb_selector_XiFan.go] calls ([strings], [strconv], [path/filepath],
      [os], [bufio], [fmt]), over an explicit console and file tree.
    - [DtbSelector]: [dtb_selector_XiFan.go].
    - [OtgSsh]: [replace_file/tools/SSH over OTG for ArkOS.sh].
    - [AdcKeys]: [bin/adc-key/adckeys.sh].

    Definitions come first, theorems after them. *)

From Stdlib Require Import ZArith String Ascii List Lia Bool.
From stdpp Require Import gmap strings list fin_maps sorting pretty.
From Equations Require Import Equations.
Import ListNotations.

Local Open Scope string_scope.
Local Open Scope Z_scope.
Local Open Scope list_scope.

(** ** Go runtime *)

Module GoRuntime.

(** The platforms of [build_dtb_selector.sh]. They fix the width of Go's [int]
    and the path separator. *)
Inductive Platform :=
| platform_win32
| platform_win64
| platform_macos_intel
| platform_macos_apple_silicon
| platform_linux64.

Definition intSize (p : Platform) : Z :=
  match p with
  | platform_win32 => 32
  | _ => 64
  end.

Definition Separator (p : Platform) : string :=
  match p with
  | platform_win32 | platform_win64 => String (ascii_of_nat 92) EmptyString
  | _ => "/"
  end.

(** Go's [error] values that the program can meet. [None : option error] is
    [nil]. The file layer reports the errors that come from the shape of the
    tree; permissions, quotas and device errors are outside the model. *)
Inductive error :=
| EOF                      (* io.EOF *)
| ErrSyntax                (* strconv.ErrSyntax *)
| ErrRange                 (* strconv.ErrRange *)
| ENOENT                   (* no such file or directory *)
| ENOTDIR                  (* not a directory *)
| EISDIR                   (* is a directory *)
| EEXIST                   (* file exists *)
| ErrRel                   (* filepath.Rel: target not below base *)
| ErrNotDirectory (src : string)   (* fmt.Errorf("source is not a directory: %s") *)
| SkipDir                  (* fs.SkipDir *)
| SkipAll.                 (* fs.SkipAll *)

#[global] Instance error_eq_dec : EqDecision error.
Proof. solve_decision. Defined.

(** A library call that returns [(T, error)] with a value only when the
    error is nil. *)
Inductive result (A : Type) :=
| Ok (a : A)
| Err (e : error).
Arguments Ok {A} a.
Arguments Err {A} e.

Definition errorOf {A} (r : result A) : option error :=
  match r with Ok _ => None | Err e => Some e end.

(** *** Bytes and strings

    A Go string is a sequence of bytes; so is a Rocq [string]. *)

Definition byte_of (c : ascii) : Z := Z.of_N (N_of_ascii c).
Definition of_byte (z : Z) : ascii := ascii_of_N (Z.to_N z).

Definition bytes (l : list Z) : string :=
  string_of_list_ascii (map of_byte l).

Fixpoint string_rev_append (s acc : string) : string :=
  match s with
  | EmptyString => acc
  | String c s' => string_rev_append s' (String c acc)
  end.

Definition string_rev (s : string) : string := string_rev_append s EmptyString.

Fixpoint string_map (f : ascii -> ascii) (s : string) : string :=
  match s with
  | EmptyString => EmptyString
  | String c s' => String (f c) (string_map f s')
  end.

Fixpoint string_forallb (f : ascii -> bool) (s : string) : bool :=
  match s with
  | EmptyString => true
  | String c s' => f c && string_forallb f s'
  end.

(** [utf8.RuneSelf = 0x80]: bytes below it are ASCII characters. *)
Definition RuneSelf : Z := 128.

(** [strings.asciiSpace]: tab, line feed, vertical tab, form feed, carriage
    return and space. *)
Definition asciiSpace (c : ascii) : bool :=
  let b := byte_of c in
  (b =? 9) || (b =? 10) || (b =? 11) || (b =? 12) || (b =? 13) || (b =? 32).

(** One pass of [strings.TrimSpace] from the left. Besides the ASCII spaces it
    removes the runes of [unicode.IsSpace], met in their UTF-8 encoding:
    U+0085, U+00A0 (C2 85, C2 A0), U+1680 (E1 9A 80), U+2000..U+200A,
    U+2028, U+2029, U+202F (E2 80 80..8A, E2 80 A8, E2 80 A9, E2 80 AF),
    U+205F (E2 81 9F) and U+3000 (E3 80 80). *)
Fixpoint trimLeftSpace (s : string) : string :=
  match s with
  | EmptyString => EmptyString
  | String c s1 =>
      if asciiSpace c then trimLeftSpace s1
      else
        match s1 with
        | String c2 s2 =>
            let b := byte_of c in
            let b2 := byte_of c2 in
            if (b =? 194) && ((b2 =? 133) || (b2 =? 160)) then trimLeftSpace s2
            else
              match s2 with
              | String c3 s3 =>
                  let b3 := byte_of c3 in
                  if ((b =? 225) && (b2 =? 154) && (b3 =? 128))
                     || ((b =? 226) && (b2 =? 128)
                         && (((128 <=? b3) && (b3 <=? 138))
                             || (b3 =? 168) || (b3 =? 169) || (b3 =? 175)))
                     || ((b =? 226) && (b2 =? 129) && (b3 =? 159))
                     || ((b =? 227) && (b2 =? 128) && (b3 =? 128))
                  then trimLeftSpace s3
                  else s
              | EmptyString => s
              end
        | EmptyString => s
        end
  end.

(** The same pass from the right, on the reversed string: the last rune is
    a space exactly when the string ends with one of the encodings above. *)
Fixpoint trimLeftSpace_rev (s : string) : string :=
  match s with
  | EmptyString => EmptyString
  | String c s1 =>
      if asciiSpace c then trimLeftSpace_rev s1
      else
        match s1 with
        | String c2 s2 =>
            let b := byte_of c in
            let b2 := byte_of c2 in
            if (b2 =? 194) && ((b =? 133) || (b =? 160)) then trimLeftSpace_rev s2
            else
              match s2 with
              | String c3 s3 =>
                  let b3 := byte_of c3 in
                  if ((b3 =? 225) && (b2 =? 154) && (b =? 128))
                     || ((b3 =? 226) && (b2 =? 128)
                         && (((128 <=? b) && (b <=? 138))
                             || (b =? 168) || (b =? 169) || (b =? 175)))
                     || ((b3 =? 226) && (b2 =? 129) && (b =? 159))
                     || ((b3 =? 227) && (b2 =? 128) && (b =? 128))
                  then trimLeftSpace_rev s3
                  else s
              | EmptyString => s
              end
        | EmptyString => s
        end
  end.

(** [strings.TrimSpace]. *)
Definition TrimSpace (s : string) : string :=
  string_rev (trimLeftSpace_rev (string_rev (trimLeftSpace s))).

Definition isUpperASCII (c : ascii) : bool :=
  let b := byte_of c in (65 <=? b) && (b <=? 90).

Definition toLowerASCII (c : ascii) : ascii :=
  if isUpperASCII c then of_byte (byte_of c + 32) else c.

Section Unicode.

(** [strings.Map(unicode.ToLower, s)], which [strings.ToLower] falls back to
    on a string with a byte outside ASCII. It reads Unicode's case tables,
    which are not part of this repository. *)
Variable mapToLower : string -> string.

(** [strings.ToLower]. *)
Definition ToLower (s : string) : string :=
  if string_forallb (fun c => byte_of c <? RuneSelf) s
  then string_map toLowerASCII s
  else mapToLower s.

End Unicode.

(** *** strconv *)

Definition digitVal (c : ascii) : option Z :=
  let b := byte_of c in
  if (48 <=? b) && (b <=? 57) then Some (b - 48) else None.

Fixpoint parseDigits (acc : Z) (s : string) : option Z :=
  match s with
  | EmptyString => Some acc
  | String c s' =>
      match digitVal c with
      | Some d => parseDigits (acc * 10 + d) s'
      | None => None
      end
  end.

(** [strconv.Atoi] on a platform whose [int] has [intSize p] bits: an
    optional sign and one or more decimal digits; a value outside [int]
    gives the nearest bound and [ErrRange]. *)
Definition Atoi (p : Platform) (s : string) : Z * option error :=
  let '(neg, body) :=
    match s with
    | String "-"%char r => (true, r)
    | String "+"%char r => (false, r)
    | _ => (false, s)
    end in
  match body with
  | EmptyString => (0, Some ErrSyntax)
  | _ =>
      match parseDigits 0 body with
      | None => (0, Some ErrSyntax)
      | Some un =>
          let cutoff := 2 ^ (intSize p - 1) in
          if negb neg && (cutoff <=? un) then (cutoff - 1, Some ErrRange)
          else if neg && (cutoff <? un) then (- cutoff, Some ErrRange)
          else (if neg then - un else un, None)
      end
  end.

(** [%d] of a non-negative number. *)
Definition itoa (n : nat) : string := pretty n.

(** *** The console: bufio and fmt

    Standard input is the sequence of complete lines still to be read, each
    without its line feed; bytes after the last line feed are what
    [ReadString] returns together with [io.EOF]. Standard output is the
    sequence of writes made so far. *)

Record Console := mkConsole { stdin : list string; stdout : list string }.

Definition nl : string := bytes [10].

(** [stdinReader.ReadString('\n')]. *)
Definition ReadString (c : Console) : (string * option error) * Console :=
  match stdin c with
  | [] => ((EmptyString, Some EOF), c)
  | l :: rest => ((l +:+ nl, None), mkConsole rest (stdout c))
  end.

(** [fmt.Print] and [fmt.Println] of one string. *)
Definition Print (msg : string) (c : Console) : Console :=
  mkConsole (stdin c) (stdout c ++ [msg]).

Definition Println (msg : string) (c : Console) : Console :=
  Print (msg +:+ nl) c.

(** *** Paths: path/filepath

    A path is kept as the list of its components below the working
    directory, which is what [filepath.Clean] leaves of a relative path;
    the empty list is ["."]. *)

Definition path := list string.

Definition isSeparator (c : ascii) : bool :=
  (byte_of c =? 47) || (byte_of c =? 92).

Fixpoint splitPath (cur : string) (s : string) : list string :=
  match s with
  | EmptyString => [string_rev cur]
  | String c s' =>
      if isSeparator c then string_rev cur :: splitPath EmptyString s'
      else splitPath (String c cur) s'
  end.

Definition cleanStep (acc : path) (c : string) : path :=
  if decide (c = EmptyString) then acc
  else if decide (c = ".") then acc
  else if decide (c = "..") then
    match last acc with
    | None => acc ++ [c]
    | Some l => if decide (l = "..") then acc ++ [c] else removelast acc
    end
  else acc ++ [c].

(** [filepath.Clean] of the concatenation of components. *)
Definition Clean (cs : list string) : path := fold_left cleanStep cs [].

(** [filepath.Join] of path strings. *)
Definition Join (elems : list string) : path :=
  Clean (concat (map (splitPath EmptyString) elems)).

(** [filepath.Join] of a clean path and a clean path below it (one that does
    not start with [".."]): their components, one after the other. *)
Definition JoinPath (a b : path) : path := a ++ b.

(** [filepath.Dir]. *)
Definition Dir_of (p : path) : path := removelast p.

Fixpoint stripPrefix (base targ : path) : option path :=
  match base, targ with
  | [], _ => Some targ
  | b :: base', t :: targ' =>
      if decide (b = t) then stripPrefix base' targ' else None
  | _ :: _, [] => None
  end.

(** [filepath.Rel base targ] for a target below the base, the only case
    [WalkDir] produces. Elsewhere Go answers with a path through [".."],
    which leaves the tree modelled here. *)
Definition Rel (base targ : path) : result path :=
  match stripPrefix base targ with
  | Some rel => Ok rel
  | None => Err ErrRel
  end.

Fixpoint joinWith (sep : string) (p : path) : string :=
  match p with
  | [] => EmptyString
  | [c] => c
  | c :: p' => c +:+ sep +:+ joinWith sep p'
  end.

(** The string of a path, as [%s] prints it. *)
Definition pathString (pf : Platform) (p : path) : string :=
  match p with
  | [] => "."
  | _ => joinWith (Separator pf) p
  end.

(** *** The file tree: os, io, io/fs

    The tree below the working directory: regular files and directories,
    keyed by path. The working directory itself is the empty path and is
    always a directory. Links, permissions and file-name case folding are
    not modelled. *)

Inductive node := Dir | File (data : string).

#[global] Instance node_eq_dec : EqDecision node.
Proof. solve_decision. Defined.

Abbreviation FS := (gmap (list string) node).

Definition node_at (fs : FS) (p : path) : option node :=
  match p with
  | [] => Some Dir
  | _ => fs !! p
  end.

Definition IsDir (n : node) : bool :=
  match n with Dir => true | File _ => false end.

(** Path resolution: every component before the last must be a directory. *)
Fixpoint resolve (fs : FS) (pre rest : path) : result node :=
  match rest with
  | [] =>
      match node_at fs pre with
      | Some n => Ok n
      | None => Err ENOENT
      end
  | c :: rest' =>
      match node_at fs pre with
      | Some Dir => resolve fs (pre ++ [c]) rest'
      | Some (File _) => Err ENOTDIR
      | None => Err ENOENT
      end
  end.

(** [os.Stat] and [os.Lstat] (there are no links). *)
Definition Stat (fs : FS) (p : path) : result node :=
  resolve fs [] p.

Definition Lstat := Stat.

(** [os.IsNotExist]. *)
Definition IsNotExist (err : option error) : bool :=
  bool_decide (err = Some ENOENT).

(** [os.MkdirAll]: every missing directory on the way is made; a regular
    file on the way is [ENOTDIR]. *)
Fixpoint mkdirFrom (pre rest : path) (fs : FS) : option error * FS :=
  match rest with
  | [] => (None, fs)
  | c :: rest' =>
      let p := pre ++ [c] in
      match fs !! p with
      | Some Dir => mkdirFrom p rest' fs
      | Some (File _) => (Some ENOTDIR, fs)
      | None => mkdirFrom p rest' (<[p := Dir]> fs)
      end
  end.

Definition MkdirAll (p : path) (fs : FS) : option error * FS :=
  mkdirFrom [] p fs.

(** [os.Open]: the file is named by its path from then on. *)
Definition Open (p : path) (fs : FS) : option error :=
  errorOf (Stat fs p).

(** [os.OpenFile(p, O_CREATE|O_WRONLY|O_TRUNC, 0o644)], and [os.Create]. *)
Definition OpenFile_create_trunc (p : path) (fs : FS) : option error * FS :=
  match p with
  | [] => (Some EISDIR, fs)
  | _ =>
      match Stat fs (Dir_of p) with
      | Ok Dir =>
          match fs !! p with
          | Some Dir => (Some EISDIR, fs)
          | _ => (None, <[p := File EmptyString]> fs)
          end
      | Ok (File _) => (Some ENOTDIR, fs)
      | Err e => (Some e, fs)
      end
  end.

Definition Create := OpenFile_create_trunc.

(** [io.CopyBuffer(out, in, buf)] between two open files. *)
Definition CopyBuffer (out inp : path) (fs : FS) : option error * FS :=
  match node_at fs inp with
  | Some (File d) => (None, <[out := File d]> fs)
  | Some Dir => (Some EISDIR, fs)
  | None => (Some ENOENT, fs)
  end.

(** A directory entry: its name and whether it is a directory. *)
Definition DirEntry := (string * bool)%type.

Definition entryOf (p : path) (kn : path * node) : option DirEntry :=
  match stripPrefix p kn.1 with
  | Some [name] => Some (name, IsDir kn.2)
  | _ => None
  end.

Definition entry_le (a b : DirEntry) : Prop := String.leb a.1 b.1.

(** [os.ReadDir]: the entries of a directory, sorted by file name. *)
Definition ReadDir (fs : FS) (p : path) : result (list DirEntry) :=
  match Stat fs p with
  | Ok Dir => Ok (merge_sort entry_le (omap (entryOf p) (map_to_list fs)))
  | Ok (File _) => Err ENOTDIR
  | Err e => Err e
  end.

(** The callback of [filepath.WalkDir]: path, entry (nil on a failed
    [Lstat] of the root), error met by the walk. *)
Definition WalkDirFunc := path -> option DirEntry -> option error -> FS -> option error * FS.

Definition entryIsDir (d : option DirEntry) : bool :=
  match d with Some (_, b) => b | None => false end.

(** The loop of [walkDir] over the entries read from a directory. *)
Fixpoint walkEntries (walk : path -> DirEntry -> FS -> option (option error * FS))
    (p : path) (dirs : list DirEntry) (fs : FS) : option (option error * FS) :=
  match dirs with
  | [] => Some (None, fs)
  | d1 :: dirs' =>
      match walk (p ++ [d1.1]) d1 fs with
      | None => None
      | Some (Some err, fs1) =>
          if decide (err = SkipDir) then Some (None, fs1) else Some (Some err, fs1)
      | Some (None, fs1) => walkEntries walk p dirs' fs1
      end
  end.

(** [filepath.walkDir]. The directory is read after the callback has run on
    it, from the tree as it is then. [depth] bounds the nesting of the
    recursion; [None] means the bound was reached. *)
Fixpoint walkDir (depth : nat) (fn : WalkDirFunc) (p : path) (d : DirEntry) (fs : FS)
    : option (option error * FS) :=
  match depth with
  | O => None
  | S depth' =>
      match fn p (Some d) None fs with
      | (Some err, fs1) =>
          if d.2 && bool_decide (err = SkipDir) then Some (None, fs1)
          else Some (Some err, fs1)
      | (None, fs1) =>
          if negb d.2 then Some (None, fs1)
          else
            match ReadDir fs1 p with
            | Err rerr =>
                match fn p (Some d) (Some rerr) fs1 with
                | (Some err, fs2) =>
                    if d.2 && bool_decide (err = SkipDir) then Some (None, fs2)
                    else Some (Some err, fs2)
                | (None, fs2) => Some (None, fs2)
                end
            | Ok dirs => walkEntries (walkDir depth' fn) p dirs fs1
            end
      end
  end.

Definition lastName (p : path) : string :=
  match last p with Some c => c | None => "." end.

(** [filepath.WalkDir]. *)
Definition WalkDir (depth : nat) (root : path) (fn : WalkDirFunc) (fs : FS)
    : option (option error * FS) :=
  let r :=
    match Lstat fs root with
    | Ok info => walkDir depth fn root (lastName root, IsDir info) fs
    | Err err => Some (fn root None (Some err) fs)
    end in
  match r with
  | Some (Some err, fs1) =>
      if bool_decide (err = SkipDir) || bool_decide (err = SkipAll)
      then Some (None, fs1) else Some (Some err, fs1)
  | _ => r
  end.

(** How a call ends: it returns, it panics (an index out of range, a nil
    dereference), or the model's bound on the nesting of [walkDir] was
    reached before it could return. *)
Inductive exec (A : Type) :=
| Returned (a : A)
| Panicked
| DepthReached.
Arguments Returned {A} a.
Arguments Panicked {A}.
Arguments DepthReached {A}.

(** The index expression [l[i]] of a slice, as the position it denotes;
    [None] is the run-time panic on an index out of range. *)
Definition index {A} (l : list A) (i : Z) : option nat :=
  if (0 <=? i) && (i <? Z.of_nat (length l)) then Some (Z.to_nat i) else None.

Definition inspect {A} (a : A) : {b : A | a = b} := exist _ a eq_refl.

(** The longest path in the tree. While a tree is copied into the working
    directory no path grows beyond it, so it bounds the nesting of the walk
    (see [copyDirectory_returns]). *)
Definition treeDepth (fs : FS) : nat :=
  max_list (map (fun kn : path * node => length kn.1) (map_to_list fs)).

End GoRuntime.

(** ** dtb_selector_XiFan.go *)

Module DtbSelector.
Import GoRuntime.

Record Option := mkOption {
  Display : string;  (* the name shown in the menu *)
  Real : string;     (* consoles/<Real> *)
  Logo : string      (* consoles/logo/<...>/ *)
}.

Definition XiFanOptions : list Option := [
  mkOption "XiFan Mymini" "mymini" "logo/480P/";
  mkOption "XiFan R36Max" "r36max" "logo/720P/";
  mkOption "XiFan R36Pro" "r36pro" "logo/480P/";
  mkOption "XiFan XF35H" "xf35h" "logo/480P/";
  mkOption "XiFan XF40H" "xf40h" "logo/720P/";
  mkOption "XiFan XF40V" "dc40v" "logo/720P/";
  mkOption "XiFan DC40V" "dc40v" "logo/720P/";
  mkOption "XiFan DC35V" "dc35v" "logo/480P/"
].

Section Program.

(** The platform the program was built for. *)
Variable pf : Platform.

(** [strings.Map(unicode.ToLower, s)], see [GoRuntime.ToLower]. *)
Variable mapToLower : string -> string.

(** [err.Error()], the text that [%v] prints for an error. *)
Variable Error : error -> string.

(** *** Copying files *)

Definition copyFile (src dst : path) (fs : FS) : option error * FS :=
  match Open src fs with
  | Some err => (Some err, fs)
  | None =>
      match MkdirAll (Dir_of dst) fs with
      | (Some err, fs) => (Some err, fs)
      | (None, fs) =>
          match OpenFile_create_trunc dst fs with
          | (Some err, fs) => (Some err, fs)
          | (None, fs) => CopyBuffer dst src fs
          end
      end
  end.

(** The function literal that [copyDirectory] hands to [filepath.WalkDir]. *)
Definition copyDirectory_func (src dst : path) : WalkDirFunc :=
  fun p d walkErr fs =>
    match walkErr with
    | Some err => (Some err, fs)
    | None =>
        match Rel src p with
        | Err err => (Some err, fs)
        | Ok rel =>
            let targetPath := JoinPath dst rel in
            if entryIsDir d then MkdirAll targetPath fs
            else copyFile p targetPath fs
        end
    end.

Definition copyDirectory (depth : nat) (src dst : path) (fs : FS)
    : option (option error * FS) :=
  match Stat fs src with
  | Err err => Some (Some err, fs)
  | Ok info =>
      if negb (IsDir info)
      then Some (Some (ErrNotDirectory (pathString pf src)), fs)
      else WalkDir depth src (copyDirectory_func src dst) fs
  end.

(** *** The menu *)

Definition prompt (msg : string) (c : Console) : (string * option error) * Console :=
  let c := Print msg c in
  match ReadString c with
  | ((line, Some err), c) => ((EmptyString, Some err), c)
  | ((line, None), c) => ((TrimSpace line, None), c)
  end.

Lemma prompt_consumes msg c resp c1 :
  prompt msg c = ((resp, None), c1) ->
  (length (stdin c1) < length (stdin c))%nat.
Proof.
  unfold prompt, ReadString. simpl.
  destruct (stdin c) as [|l rest]; simpl; intros H; inversion H; subst; simpl; lia.
Qed.

Definition hintNumber : string := "请输入序号或输入 q 退出".

Equations? readIntChoice (msg : string) (c : Console) : (Z * option error) * Console
  by wf (length (stdin c)) lt :=
  readIntChoice msg c with inspect (prompt msg c) => {
    | exist _ ((resp, Some err), c1) _ := ((-1, Some err), c1);
    | exist _ ((resp, None), c1) Hp :=
        let l := ToLower mapToLower resp in
        if bool_decide (l = "q") || bool_decide (l = "quit") || bool_decide (l = "exit")
        then ((0, None), c1)
        else
          match Atoi pf resp with
          | (n, Some _) => readIntChoice msg (Println hintNumber c1)
          | (n, None) => ((n, None), c1)
          end }.
Proof. simpl. apply (prompt_consumes _ _ _ _ Hp). Qed.

(** The body of the loop, as the source has it. *)
Lemma readIntChoice_body msg c :
  readIntChoice msg c =
  match prompt msg c with
  | ((resp, Some err), c1) => ((-1, Some err), c1)
  | ((resp, None), c1) =>
      let l := ToLower mapToLower resp in
      if bool_decide (l = "q") || bool_decide (l = "quit") || bool_decide (l = "exit")
      then ((0, None), c1)
      else
        match Atoi pf resp with
        | (n, Some _) => readIntChoice msg (Println hintNumber c1)
        | (n, None) => ((n, None), c1)
        end
  end.
Proof.
  funelim (readIntChoice msg c).
  - rewrite e. reflexivity.
  - rewrite Hp. reflexivity.
Qed.

Lemma readIntChoice_consumes msg c n c1 :
  readIntChoice msg c = ((n, None), c1) ->
  (length (stdin c1) < length (stdin c))%nat.
Proof.
  remember (length (stdin c)) as k eqn:Hk.
  revert c Hk n c1. induction k as [k IH] using lt_wf_ind. intros c Hk n c1.
  rewrite readIntChoice_body.
  destruct (prompt msg c) as [[resp [err|]] c2] eqn:Hp; [discriminate|].
  pose proof (prompt_consumes _ _ _ _ Hp) as Hlt.
  cbv zeta.
  destruct (_ || _).
  - intros H; inversion H; subst. lia.
  - destruct (Atoi pf resp) as [m [e|]].
    + intros H. apply (IH (length (stdin (Println hintNumber c2)))) in H;
        simpl in *; try lia; reflexivity.
    + intros H; inversion H; subst. lia.
Qed.

Definition askChoice : string := "选择序号: ".
Definition invalidChoice : string := "无效选择，请重试。".

(** [for i, opt := range XiFanOptions], from index [i] on. *)
Fixpoint printOptions (i : nat) (opts : list Option) (c : Console) : Console :=
  match opts with
  | [] => c
  | opt :: opts' =>
      printOptions (S i) opts'
        (Print ("  " +:+ itoa (i + 1) +:+ ". " +:+ Display opt +:+ nl) c)
  end.

(** The [for] loop of [selectXiFan]. A pointer [&XiFanOptions[i]] is kept as
    the position [i] it points to. *)
Equations? selectXiFan_loop (c : Console)
  : exec ((option nat * option error) * Console)
  by wf (length (stdin c)) lt :=
  selectXiFan_loop c with inspect (readIntChoice askChoice c) => {
    | exist _ ((choice, Some err), c1) _ := Returned ((None, Some err), c1);
    | exist _ ((choice, None), c1) Hr :=
        if choice =? 0 then Returned ((None, None), c1)
        else if (0 <? choice) && (choice <=? Z.of_nat (length XiFanOptions)) then
          match index XiFanOptions (choice - 1) with
          | Some ptr => Returned ((Some ptr, None), c1)
          | None => Panicked
          end
        else selectXiFan_loop (Println invalidChoice c1) }.
Proof. simpl. apply (readIntChoice_consumes _ _ _ _ Hr). Qed.

Lemma selectXiFan_loop_body c :
  selectXiFan_loop c =
  match readIntChoice askChoice c with
  | ((choice, Some err), c1) => Returned ((None, Some err), c1)
  | ((choice, None), c1) =>
      if choice =? 0 then Returned ((None, None), c1)
      else if (0 <? choice) && (choice <=? Z.of_nat (length XiFanOptions)) then
        match index XiFanOptions (choice - 1) with
        | Some ptr => Returned ((Some ptr, None), c1)
        | None => Panicked
        end
      else selectXiFan_loop (Println invalidChoice c1)
  end.
Proof.
  funelim (selectXiFan_loop c).
  - rewrite e. reflexivity.
  - rewrite Hr. reflexivity.
Qed.

Definition selectXiFan (c : Console) : exec ((option nat * option error) * Console) :=
  let c := Println "====== XIFAN 机型选择 ======" c in
  let c := printOptions 0 XiFanOptions c in
  let c := Println "  0. 退出 (q 也可)" c in
  let c := Println "===========================" c in
  selectXiFan_loop c.

(** *** The marker file *)

Definition createdCN : string := "已创建语言标记文件：.cn".

Definition createCNFile (c : Console) (fs : FS) : option error * (Console * FS) :=
  match Create (Join [".cn"]) fs with
  | (Some err, fs) => (Some err, (c, fs))
  | (None, fs) => (None, (Println createdCN c, fs))
  end.

(** *** The main flow *)

Definition msgSourceMissing (srcPath : path) : string :=
  "未找到源目录: " +:+ pathString pf srcPath +:+ nl.
Definition msgCopying (o : Option) : string :=
  "正在复制机型: " +:+ Display o +:+ " => 当前目录" +:+ nl.
Definition msgCopyFailed (err : error) : string :=
  "复制机型失败: " +:+ Error err +:+ nl.
Definition msgCopyingLogo (o : Option) : string :=
  "正在复制 LOGO: " +:+ Logo o +:+ " => 当前目录" +:+ nl.
Definition msgLogoFailed (err : error) : string :=
  "复制 LOGO 失败: " +:+ Error err +:+ nl.
Definition msgLogoMissing (logoSrc : path) : string :=
  "提示：未找到 LOGO 目录：" +:+ pathString pf logoSrc +:+ "（跳过）" +:+ nl.
Definition msgCNFailed (err : error) : string :=
  "创建 .cn 文件失败: " +:+ Error err +:+ nl.
Definition msgDone (o : Option) : string :=
  "✅ 完成！已复制机型：" +:+ Display o +:+ " (consoles/" +:+ Real o
    +:+ ") + LOGO(" +:+ Logo o +:+ ")" +:+ nl.

(** [copyDirectory(src, ".")], as [main] calls it twice. The walk is given
    the longest path of the tree as the bound on its nesting; it never
    reaches it ([copyHere_returns]). *)
Definition copyHere (src : path) (fs : FS) : option (option error * FS) :=
  copyDirectory (S (treeDepth fs)) src (Join ["."]) fs.

(** [main] from the comment [// 1.] on, for the selected option. *)
Definition main_steps (selected : Option) (c : Console) (fs : FS) : exec (Console * FS) :=
  (* 3. the marker file *)
  let finish := fun c fs =>
    match createCNFile c fs with
    | (Some err, (c, fs)) => Returned (Print (msgCNFailed err) c, fs)
    | (None, (c, fs)) => Returned (Print (msgDone selected) c, fs)
    end in
  (* 1. the console directory *)
  let srcPath := Join ["consoles"; Real selected] in
  if IsNotExist (errorOf (Stat fs srcPath))
  then Returned (Print (msgSourceMissing srcPath) c, fs)
  else
    let c := Print (msgCopying selected) c in
    match copyHere srcPath fs with
    | None => DepthReached
    | Some (Some err, fs) => Returned (Print (msgCopyFailed err) c, fs)
    | Some (None, fs) =>
        (* 2. the logo *)
        if negb (bool_decide (Logo selected = EmptyString)) then
          let logoSrc := Join ["consoles"; Logo selected] in
          match Stat fs logoSrc with
          | Ok _ =>
              let c := Print (msgCopyingLogo selected) c in
              match copyHere logoSrc fs with
              | None => DepthReached
              | Some (Some err, fs) => Returned (Print (msgLogoFailed err) c, fs)
              | Some (None, fs) => finish c fs
              end
          | Err _ => finish (Print (msgLogoMissing logoSrc) c) fs
          end
        else finish c fs
    end.

Definition main (c : Console) (fs : FS) : exec (Console * FS) :=
  let c := Println "DTB Selector (XIFAN Only)" c in
  let c := Println "选择机型后，会复制对应 consoles/<机型> 和 logo 目录，并创建 .cn 文件。" c in
  let c := Println EmptyString c in
  match selectXiFan c with
  | Panicked => Panicked
  | DepthReached => DepthReached
  | Returned ((_, Some err), c) =>
      Returned (Print ("Error: " +:+ Error err +:+ nl) c, fs)
  | Returned ((None, None), c) =>
      Returned (Println "已退出。" c, fs)
  | Returned ((Some ptr, None), c) =>
      match XiFanOptions !! ptr with
      | None => Panicked
      | Some selected => main_steps selected c fs
      end
  end.

End Program.
End DtbSelector.

(** ** replace_file/tools/SSH over OTG for ArkOS.sh *)

Module OtgSsh.

(** One executed command with its exit status. The text is the command after
    expansion and quote removal; redirections to [/dev/null] are left out. *)
Definition event := (string * Z)%type.

(** The device the script runs on. What a command answers may depend on
    everything that was run before it. *)
Record Machine := mkMachine {
  status : list event -> string -> Z;       (* exit status of a command *)
  output : list event -> string -> string;  (* what a command substitution reads *)
  lastpid : list event -> string            (* [$!] *)
}.

(** The shell: the commands executed so far, in order (external commands,
    tests on files, and the calls of the script's own functions, each
    recorded with its status when it ends), and the variable [RUN_LOG]. *)
Record Shell := mkShell { hist : list event; RUN_LOG : string }.

Definition Sh (A : Type) : Type := Shell -> A * Shell.

#[global] Instance Sh_ret : MRet Sh := fun A a s => (a, s).
#[global] Instance Sh_bind : MBind Sh :=
  fun A B f x s => let '(a, s1) := x s in f a s1.

Definition record_event (e : event) : Sh unit :=
  fun s => (tt, mkShell (hist s ++ [e]) (RUN_LOG s)).

(** A call of one of the script's functions. *)
Definition call (name : string) (body : Sh Z) : Sh Z :=
  r ← body; record_event (name, r);; mret r.

(** [a && b || c]. *)
Definition and_or (a b c : Sh Z) : Sh Z :=
  r ← a;
  if r =? 0 then (r2 ← b; if r2 =? 0 then mret 0 else c) else c.

Definition CURR_TTY : string := "/dev/tty1".
Definition GADGET_DIR : string := "/sys/kernel/config/usb_gadget/arkos_ssh".
Definition DEVICE_IP : string := "192.168.7.1".
Definition DHCP_START : string := "192.168.7.100".
Definition DHCP_END : string := "192.168.7.200".
Definition DHCP_SUBNET : string := "255.255.255.0".
Definition RUN_LOG_init : string := "log message:".
Definition lf : string := GoRuntime.bytes [10].

Section Script.

Variable m : Machine.

(** [$(basename "$0")]. *)
Variable SCRIPT_NAME : string.

Definition run (cmd : string) : Sh Z :=
  fun s => let r := status m (hist s) cmd in
           (r, mkShell (hist s ++ [(cmd, r)]) (RUN_LOG s)).

(** [cmd &]: the shell goes on at once, with status 0. *)
Definition run_bg (cmd : string) : Sh Z :=
  record_event (cmd +:+ " &", 0);; mret 0.

(** [$(cmd)]. *)
Definition capture (cmd : string) : Sh string :=
  fun s => let r := status m (hist s) cmd in
           (output m (hist s) cmd, mkShell (hist s ++ [(cmd, r)]) (RUN_LOG s)).

Definition last_pid : Sh string := fun s => (lastpid m (hist s), s).

Definition add_run_log (msg : string) : Sh Z :=
  call ("add_run_log " +:+ msg)
    (fun s => (0, mkShell (hist s) (RUN_LOG s +:+ "\n" +:+ msg))).

(** [c || { add_run_log msg; return 1; }], then the rest of the function. *)
Definition or_fail (c : Sh Z) (msg : string) (rest : Sh Z) : Sh Z :=
  r ← c;
  if r =? 0 then rest else (add_run_log msg;; mret 1).

(** A builtin that cannot fail ([export]). *)
Definition builtin (cmd : string) : Sh Z :=
  record_event (cmd, 0);; mret 0.

(** A command at a place where [set -e] is in force: when it fails the
    shell exits with its status ([Some st]); otherwise the script goes on. *)
Definition errexit (c : Sh Z) (rest : Sh (option Z)) : Sh (option Z) :=
  r ← c;
  if negb (r =? 0) then mret (Some r) else rest.

Definition cleanup_usb_gadget : Sh Z :=
  call "cleanup_usb_gadget"
    (r ← run ("[ -d " +:+ GADGET_DIR +:+ " ]");
     (if r =? 0 then
        run ("echo  > " +:+ GADGET_DIR +:+ "/UDC");;
        run ("rm -f " +:+ GADGET_DIR +:+ "/configs/c.1/rndis.usb0 "
                      +:+ GADGET_DIR +:+ "/configs/c.1/ecm.usb0");;
        run ("rmdir " +:+ GADGET_DIR +:+ "/configs/c.1 "
                      +:+ GADGET_DIR +:+ "/functions/rndis.usb0 "
                      +:+ GADGET_DIR +:+ "/functions/ecm.usb0");;
        run ("rmdir " +:+ GADGET_DIR);;
        mret tt
      else mret tt);;
     mret 0).

Definition probe_usb0 : string := "ip link show usb0".

(** The [while [ $retry -lt 10 ]] loop of [configure_usb_gadget]; it gives
    the value of [retry] at its end. *)
Equations? wait_usb0 (retry : Z) (s : Shell) : Z * Shell
  by wf (Z.to_nat (10 - retry)) lt :=
  wait_usb0 retry s with Z_lt_dec retry 10 => {
    | right _ := (retry, s);
    | left Hlt :=
        let '(r, s1) := run probe_usb0 s in
        if r =? 0 then (retry, s1)
        else
          let '(_, s2) :=
            add_run_log ("[WARNING] usb0 not ready (try "
                         +:+ pretty (retry + 1) +:+ "/10)") s1 in
          let '(_, s3) := run "sleep 2" s2 in
          wait_usb0 (retry + 1) s3 }.
Proof. lia. Qed.

(** The end of [configure_usb_gadget], from [local retry=0] on. *)
Definition await_usb0 : Sh Z :=
  retry ← wait_usb0 0;
  if retry =? 10 then (add_run_log "[ERROR] usb0 not found";; mret 1)
  else mret 0.

Definition configure_usb_gadget : Sh Z :=
  call "configure_usb_gadget"
    (or_fail (run "modprobe libcomposite") "[ERROR] Could not load libcomposite" (
     or_fail (run "modprobe usb_f_rndis") "[ERROR] Could not load rndis" (
     or_fail (run "modprobe usb_f_ecm") "[ERROR] Could not load ecm" (
     d ← run "[ -d /sys/class/udc ]";
     udc_device ←
       (if d =? 0 then
          u ← capture "basename /sys/class/udc/*";
          add_run_log ("[INFO] Found UDC: " +:+ u);;
          mret u
        else
          add_run_log "[INFO] Using default UDC: ff300000.usb";;
          mret "ff300000.usb");
     cleanup_usb_gadget;;
     or_fail (run ("mkdir -p " +:+ GADGET_DIR)) "[ERROR] Could not create gadget dir" (
     run ("cd " +:+ GADGET_DIR);;
     run "echo 0x1d6b > idVendor";;
     run "echo 0x0104 > idProduct";;
     run "mkdir -p strings/0x409";;
     t ← capture "date +%s";
     run ("echo ArkOS" +:+ t +:+ " > strings/0x409/serialnumber");;
     run "echo ArkOS Team > strings/0x409/manufacturer";;
     run "echo Gaming Console > strings/0x409/product";;
     run "mkdir -p configs/c.1/strings/0x409";;
     run "echo SSH over OTG for ArkOS > configs/c.1/strings/0x409/configuration";;
     run "echo 500 > configs/c.1/MaxPower";;
     let start :=
       or_fail (run ("echo " +:+ udc_device +:+ " > UDC"))
         "[ERROR] Could not start USB gadget" (
       run "sleep 3";;
       await_usb0) in
     rndis ← run "mkdir -p functions/rndis.usb0";
     if rndis =? 0 then
       run "ln -sf functions/rndis.usb0 configs/c.1/";; start
     else
       ecm ← run "mkdir -p functions/ecm.usb0";
       if ecm =? 0 then
         run "ln -sf functions/ecm.usb0 configs/c.1/";; start
       else
         add_run_log "[ERROR] Could not create USB network function";;
         mret 1))))).

Definition ip_addr_add : string := "ip addr add " +:+ DEVICE_IP +:+ "/24 dev usb0".
Definition ip_link_up : string := "ip link set usb0 up".
Definition ifconfig_up : string :=
  "ifconfig usb0 " +:+ DEVICE_IP +:+ " netmask " +:+ DHCP_SUBNET +:+ " up".

Definition configure_network : Sh Z :=
  call "configure_network"
    (or_fail (run probe_usb0) "[ERROR] usb0 does not exist" (
     has_ip ← run "command -v ip";
     if has_ip =? 0 then
       run "ip addr flush dev usb0";;
       or_fail (run ip_addr_add) "[WARNING] Could not assign IP with ip" (
       or_fail (run ip_link_up) "[WARNING] Could not bring up usb0 with ip" (
       add_run_log "[INFO] interface usb0 brought up with ip";;
       mret 0))
     else
       has_ifconfig ← run "command -v ifconfig";
       if has_ifconfig =? 0 then
         or_fail (run ifconfig_up) "[WARNING] Could not configure usb0 with ifconfig" (
         add_run_log "[INFO] usb0 configured with ifconfig";;
         mret 0)
       else
         add_run_log "[ERROR] No ip or ifconfig found";;
         mret 1)).

Definition dhcp_config : string := "/tmp/usb_dhcp.conf".

Definition start_dhcp_service : Sh Z :=
  call "start_dhcp_service"
    (or_fail (run "command -v dnsmasq") "[ERROR] Dnsmasq not found" (
     run "pkill -f dnsmasq.*usb_dhcp.conf";;
     run ("cat > " +:+ dhcp_config +:+ " << EOF" +:+ lf
          +:+ "port=0" +:+ lf
          +:+ "interface=usb0" +:+ lf
          +:+ "dhcp-range=" +:+ DHCP_START +:+ "," +:+ DHCP_END +:+ ",12h" +:+ lf
          +:+ "dhcp-option=3," +:+ DEVICE_IP +:+ lf
          +:+ "dhcp-option=6," +:+ DEVICE_IP +:+ lf
          +:+ "EOF");;
     run_bg ("dnsmasq -C " +:+ dhcp_config);;
     pid ← last_pid;
     or_fail (k ← run ("kill -0 " +:+ pid);
              if k =? 0
              then add_run_log ("[INFO] DHCP started (PID: " +:+ pid +:+ ")")
              else mret k)
       "[ERROR] dnsmasq failed to start" (
     mret 0))).

(** [for svc in sshd ssh]: the two checks of one service. *)
Definition ssh_check (svc : string) (ssh_running : bool) : Sh bool :=
  p ← run ("pgrep -x " +:+ svc);
  ssh_running ←
    (if p =? 0
     then add_run_log ("[INFO] SSH (" +:+ svc +:+ ") already running");; mret true
     else mret ssh_running);
  a ← run ("systemctl is-active --quiet " +:+ svc);
  if a =? 0
  then add_run_log ("[INFO] SSH (" +:+ svc +:+ ") already running");; mret true
  else mret ssh_running.

Fixpoint ssh_checks (svcs : list string) (ssh_running : bool) : Sh bool :=
  match svcs with
  | [] => mret ssh_running
  | svc :: svcs' => b ← ssh_check svc ssh_running; ssh_checks svcs' b
  end.

(** [for cmd in ...; do if eval "$cmd"; then ...; break; fi; done]. *)
Fixpoint ssh_start (cmds : list string) : Sh unit :=
  match cmds with
  | [] => mret tt
  | cmd :: cmds' =>
      r ← run cmd;
      if r =? 0 then add_run_log ("[INFO] SSH started via " +:+ cmd);; mret tt
      else ssh_start cmds'
  end.

Definition ssh_confirm : Sh Z :=
  run "sleep 2";;
  p ← run "pgrep -x sshd";
  a ← (if p =? 0 then mret 0 else run "systemctl is-active --quiet ssh");
  b ← (if a =? 0 then mret 0 else run "systemctl is-active --quiet sshd");
  if b =? 0 then add_run_log "[INFO] SSH confirmed running";; mret 0
  else add_run_log "[WARNING] SSH may not be running";; mret 1.

Definition start_ssh_service : Sh Z :=
  call "start_ssh_service"
    (ssh_running ← ssh_checks ["sshd"; "ssh"] false;
     if negb ssh_running then
       ssh_start ["systemctl start ssh"; "systemctl start sshd";
                  "service ssh start"; "service sshd start"];;
       f ← (if negb ssh_running then run "[ -f /usr/sbin/sshd ]" else mret 1);
       if f =? 0 then
         run_bg "/usr/sbin/sshd -D";;
         pid ← last_pid;
         k ← run ("kill -0 " +:+ pid);
         if k =? 0 then
           add_run_log ("[INFO] SSH started directly (PID: " +:+ pid +:+ ")");;
           ssh_confirm
         else
           add_run_log "[ERROR] Could not start SSH daemon";;
           mret 1
       else ssh_confirm
     else ssh_confirm).

(** [init_terminal], called where [set -e] is in force. *)
Definition init_terminal : Sh (option Z) :=
  errexit (run ("printf \033c\e[?25l > " +:+ CURR_TTY)) (
  run "setfont /usr/share/consolefonts/Lat7-Terminus16.psf.gz";;
  errexit (run ("printf \033cSSH over OTG for ArkOS loading, please wait... > "
                +:+ CURR_TTY)) (
  errexit (run "sleep 1") (
  record_event ("init_terminal", 0);;
  mret None))).

Definition setup_gamepad_support : Sh Z :=
  call "setup_gamepad_support"
    (and_or (run "command -v /opt/inttools/gptokeyb")
       (and_or (run "[ -e /dev/uinput ]") (run "chmod 666 /dev/uinput")
               (add_run_log "[WARNING] Could not change /dev/uinput permissions");;
        builtin "export SDL_GAMECONTROLLERCONFIG_FILE=/opt/inttools/gamecontrollerdb.txt";;
        run ("pkill -f gptokeyb -1 " +:+ SCRIPT_NAME);;
        run_bg ("/opt/inttools/gptokeyb -1 " +:+ SCRIPT_NAME
                +:+ " -c /opt/inttools/keys.gptk"))
       (add_run_log "[WARNING] Gamepad support disabled. gptokeyb not found.");;
     mret 0).

Definition safe_msgbox (text height width : string) : Sh Z :=
  call "safe_msgbox"
    (run ("dialog --backtitle SSH over OTG for ArkOS by AlternativeRoom4499 & carrothu-cn"
          +:+ " --title SSH over OTG for ArkOS --msgbox " +:+ text +:+ " "
          +:+ height +:+ " " +:+ width +:+ " > " +:+ CURR_TTY);;
     mret 0).

(** The four lines of [main] that bring the link up, and then the rest of
    [main]. *)
Definition bring_up (rest : Sh (option Z)) : Sh (option Z) :=
  errexit (and_or configure_usb_gadget (add_run_log "[OK] USB Gadget configured")
             (add_run_log "[ERROR] USB Gadget configuration failed")) (
  errexit (and_or configure_network (add_run_log "[OK] Network configured")
             (add_run_log "[ERROR] Network configuration failed")) (
  errexit (and_or start_dhcp_service (add_run_log "[OK] DHCP service started")
             (add_run_log "[ERROR] DHCP service start failed")) (
  errexit (and_or start_ssh_service (add_run_log "[OK] SSH service started")
             (add_run_log "[ERROR] SSH service start failed")) rest))).

Definition connection_info : string :=
  "Plug the USB cable into OTG port and connect via SSH/SFTP:\nark@" +:+ DEVICE_IP
  +:+ " (default password is: ark)\n\nIf auto-configuration fails, set your network adapter to:\n"
  +:+ "IP: 192.168.7.2, Netmask: 255.255.255.0\n\nOK to exit\n".

(** [main], run under [set -e]: [Some st] when the shell exits before the
    end of [main]. *)
Definition main : Sh (option Z) :=
  t ← init_terminal;
  match t with
  | Some st => mret (Some st)
  | None =>
      errexit setup_gamepad_support (
      bring_up (
      log ← (fun s => (RUN_LOG s, s));
      errexit (safe_msgbox (connection_info +:+ "\n" +:+ log) "12" "70") (
      mret None)))
  end.

Definition stop_dhcp_service : Sh Z :=
  call "stop_dhcp_service"
    (run "pkill -f dnsmasq.*usb_dhcp.conf";;
     run "rm -f /tmp/usb_*.conf";;
     mret 0).

(** [cleanup], as the [EXIT] trap runs it: [set -e] is in force there too,
    and the one command of it that is not guarded is the [printf]. *)
Definition cleanup : Sh (option Z) :=
  stop_dhcp_service;;
  cleanup_usb_gadget;;
  errexit (run ("printf \033c\e[?25h > " +:+ CURR_TTY)) (
  run ("pkill -f gptokeyb -1 " +:+ SCRIPT_NAME);;
  record_event ("cleanup", 0);;
  mret None).

(** The script from the check for root on, in a run that no signal
    interrupts; it gives the exit status. A user other than root has the
    script run again by [sudo], which takes the place of this shell. Root
    sets the trap and runs [main]; when the shell exits, at the end or
    through [set -e], the trap runs [cleanup], and a failure in it becomes
    the exit status. *)
Definition script : Sh Z :=
  notRoot ← run "[ $(id -u) -ne 0 ]";
  if notRoot =? 0 then run "exec sudo $0 $@"
  else
    builtin "trap cleanup EXIT SIGINT SIGTERM";;
    m ← main;
    c ← cleanup;
    mret (match c, m with
          | Some st, _ => st
          | None, Some st => st
          | None, None => 0
          end).

End Script.
End OtgSsh.

(** ** bin/adc-key/adckeys.sh *)

Module AdcKeys.
Import GoRuntime.

(** [[[ $s == *"pat"* ]]]: [pat] occurs in [s]. *)
Fixpoint contains (pat s : string) : bool :=
  String.prefix pat s ||
  match s with
  | EmptyString => false
  | String _ s' => contains pat s'
  end.

(** [tr '\0' '\n']. *)
Definition tr_nul_lf (s : string) : string :=
  string_map (fun c => if byte_of c =? 0 then of_byte 10 else c) s.

Fixpoint drop_while (f : ascii -> bool) (s : string) : string :=
  match s with
  | EmptyString => EmptyString
  | String c s' => if f c then drop_while f s' else s
  end.

Definition drop_end (f : ascii -> bool) (s : string) : string :=
  string_rev (drop_while f (string_rev s)).

(** [$( ... )] drops the line feeds at the end of what it reads. *)
Definition command_substitution (out : string) : string :=
  drop_end (fun c => byte_of c =? 10) out.

(** [read -r line] with the default [IFS]: the line without the blanks at
    its two ends. *)
Definition is_blank (c : ascii) : bool := (byte_of c =? 32) || (byte_of c =? 9).

Definition read_r (raw : string) : string :=
  drop_end is_blank (drop_while is_blank raw).

Definition DEVICE_FILE : string := "/dev/input/by-path/platform-d007-keys-event-joystick".
Definition PYTHON : string := "/usr/bin/python3".

(** [$PYTHON /usr/local/bin/adckeys.py arg]. *)
Definition adckeys_py (arg : string) : string :=
  PYTHON +:+ " /usr/local/bin/adckeys.py " +:+ arg.

(** The body of [while read -r line]: the commands run for one line. *)
Definition on_line (line : string) : list string :=
  if contains "BTN_BACK" line then
    if contains "value 1" line then [adckeys_py "startselect"] else []
  else if contains "BTN_SELECT" line then
    if contains "value 1" line then [adckeys_py "select_press"]
    else if contains "value 0" line then [adckeys_py "select_release"]
    else []
  else if contains "BTN_START" line then
    if contains "value 1" line then [adckeys_py "start_press"]
    else if contains "value 0" line then [adckeys_py "start_release"]
    else []
  else [].

(** One pass of [while true]: [evtest --grab "$DEVICE_FILE"] is started and
    its lines are read until it ends. *)
Definition evtest_pass (lines : list string) : list string :=
  ("evtest --grab " +:+ DEVICE_FILE) :: concat (map (fun raw => on_line (read_r raw)) lines).

(** The script on a device whose [/sys/firmware/devicetree/base/model] holds
    [model], for the first passes of its endless loop: [passes] lists, for
    each start of [evtest], the complete lines it printed. The result is
    the commands the script ran. On another device the [if] is left at once;
    the file ends with one more [fi], at which bash stops with a syntax
    error, having run nothing. *)
Definition adckeys_sh (model : string) (passes : list (list string)) : list string :=
  if contains "D007 Plus" (command_substitution (tr_nul_lf model))
  then concat (map evtest_pass passes)
  else [].

End AdcKeys.

(** ** build_dtb_selector.sh *)

Module BuildScript.
Import OtgSsh.

Definition TARGET : string := "dtb_selector".
Definition GO : string := "go".
(** ["$FLAGS"] of the array [FLAGS=(-ldflags="-s -w")] is its first word. *)
Definition FLAGS : string := "-ldflags=-s -w".
Definition SRC : string := "dtb_selector.go".

(** [GOOS=.. GOARCH=.. $GO build "$FLAGS" -o "$EXE" "$SRC"]. *)
Definition go_build (goos goarch EXE : string) : string :=
  "GOOS=" +:+ goos +:+ " GOARCH=" +:+ goarch +:+ " " +:+ GO +:+ " build " +:+ FLAGS
  +:+ " -o " +:+ EXE +:+ " " +:+ SRC.

(** The body of a [platform_*] function: its commands, one after the other. *)
Definition platform (title goos goarch EXE : string) : list string :=
  [ "echo Building: " +:+ title;
    go_build goos goarch EXE;
    "echo Generated: " +:+ EXE ].

Definition platform_win32 : list string :=
  platform "Windows 32-bit" "windows" "386" (TARGET +:+ "_win32.exe").
Definition platform_win64 : list string :=
  platform "Windows 64-bit" "windows" "amd64" (TARGET +:+ "_win64.exe").
Definition platform_macos_intel : list string :=
  platform "macOS Intel" "darwin" "amd64" (TARGET +:+ "_macos_intel").
Definition platform_macos_apple_silicon : list string :=
  platform "macOS Apple Silicon" "darwin" "arm64" (TARGET +:+ "_macos_apple").
Definition platform_linux64 : list string :=
  platform "Linux 64-Bit" "linux" "amd64" (TARGET +:+ "_linux").

Definition PLATFORMS : list (list string) :=
  [platform_win32; platform_macos_intel; platform_macos_apple_silicon].

Definition clean_command : string :=
  "rm -rf " +:+ TARGET +:+ "_win32.exe " +:+ TARGET +:+ "_win64.exe "
  +:+ TARGET +:+ "_macos_intel " +:+ TARGET +:+ "_macos_apple " +:+ TARGET +:+ "_linux".

Section Script.

Variable m : Machine.

(** Commands under [set -e]: the first that fails ends the script with its
    status. The state is the history of the commands run. *)
Fixpoint errexit_all (cmds : list string) (h : list event) : Z * list event :=
  match cmds with
  | [] => (0, h)
  | c :: cmds' =>
      let r := status m h c in
      if r =? 0 then errexit_all cmds' (h ++ [(c, r)]) else (r, h ++ [(c, r)])
  end.

(** [for platform in ${PLATFORMS[@]}; do $platform; echo; done]. *)
Definition build_commands : list string :=
  concat (map (fun body => body ++ ["echo"]) PLATFORMS).

(** The script with the arguments [args]; it gives the exit status. *)
Definition build_dtb_selector (args : list string) (h : list event) : Z * list event :=
  if decide (hd EmptyString args = "--clean")
  then (status m h clean_command, h ++ [(clean_command, status m h clean_command)])
  else errexit_all build_commands h.

End Script.
End BuildScript.

(** ** Sample runs

    A platform, trees and a device on which the programs are run in the
    examples below. *)

Module Samples.
Import GoRuntime DtbSelector.

Definition linux : Platform := platform_linux64.

(** Stands for Unicode's case mapping on the sample inputs, which are ASCII
    and never reach it. *)
Definition lower : string -> string := fun s => s.

Definition errText (e : error) : string :=
  match e with
  | EOF => "EOF"
  | ENOENT => "no such file or directory"
  | ENOTDIR => "not a directory"
  | EISDIR => "is a directory"
  | _ => "error"
  end.

Definition mymini : Option := mkOption "XiFan Mymini" "mymini" "logo/480P/".

(** A tree with the files of one console and its logo. *)
Definition tree0 : FS :=
  list_to_map [
    (["consoles"], Dir);
    (["consoles"; "mymini"], Dir);
    (["consoles"; "mymini"; "boot.ini"], File "boot");
    (["consoles"; "mymini"; "dtb"], Dir);
    (["consoles"; "mymini"; "dtb"; "rk3326.dtb"], File "dtb");
    (["consoles"; "logo"], Dir);
    (["consoles"; "logo"; "480P"], Dir);
    (["consoles"; "logo"; "480P"; "logo.bmp"], File "bmp")
  ].

(** A tree with the files of option 6 and 7. *)
Definition tree67 : FS :=
  list_to_map [
    (["consoles"], Dir);
    (["consoles"; "dc40v"], Dir);
    (["consoles"; "dc40v"; "boot.ini"], File "boot")
  ].

(** The console ships a file [kernel] where the working directory has a
    directory [kernel]: the copy fails on it. *)
Definition treeClash : FS :=
  list_to_map [
    (["consoles"], Dir);
    (["consoles"; "mymini"], Dir);
    (["consoles"; "mymini"; "kernel"], File "k");
    (["kernel"], Dir)
  ].

(** The same, and the console ships a [.cn] of its own. *)
Definition treeClashCN : FS :=
  list_to_map [
    (["consoles"], Dir);
    (["consoles"; "mymini"], Dir);
    (["consoles"; "mymini"; ".cn"], File "zh");
    (["consoles"; "mymini"; "kernel"], File "k");
    (["kernel"], Dir)
  ].

(** The console ships a [.cn] of its own, and nothing is in the way. *)
Definition treeShipsCN : FS :=
  list_to_map [
    (["consoles"], Dir);
    (["consoles"; "mymini"], Dir);
    (["consoles"; "mymini"; ".cn"], File "zh");
    (["consoles"; "mymini"; "boot.ini"], File "boot")
  ].

(** Devices for the OTG script: one on which everything works and [usb0]
    shows up at the third look, one on which it never shows up, one on
    which [ip addr add] fails. *)
Definition looks (h : list OtgSsh.event) : nat :=
  length (List.filter (fun e : OtgSsh.event => String.eqb e.1 OtgSsh.probe_usb0) h).

Definition thirdLook : OtgSsh.Machine :=
  OtgSsh.mkMachine
    (fun h c => if String.eqb c OtgSsh.probe_usb0
                then (if (2 <=? looks h)%nat then 0 else 1) else 0)
    (fun _ _ => "udc0") (fun _ => "100").

Definition noUsb0 : OtgSsh.Machine :=
  OtgSsh.mkMachine
    (fun h c => if String.eqb c OtgSsh.probe_usb0 then 1 else 0)
    (fun _ _ => "udc0") (fun _ => "100").


(** A device on which the script runs as root and every other command
    succeeds, and a build host on which the build for macOS on Intel fails. *)
Definition rootDevice : OtgSsh.Machine :=
  OtgSsh.mkMachine
    (fun h c => if String.eqb c "[ $(id -u) -ne 0 ]" then 1 else 0)
    (fun _ _ => "udc0") (fun _ => "100").

Definition macFails : OtgSsh.Machine :=
  OtgSsh.mkMachine
    (fun h c => if String.eqb c (BuildScript.go_build "darwin" "amd64" "dtb_selector_macos_intel")
                then 2 else 0)
    (fun _ _ => EmptyString) (fun _ => EmptyString).

Definition shell0 : OtgSsh.Shell := OtgSsh.mkShell [] OtgSsh.RUN_LOG_init.

(** Two model files, and lines as [evtest] prints them. *)
Definition d007 : string := "D007 Plus" +:+ bytes [0].
Definition r36s : string := "Rockchip RK3326 R36S" +:+ bytes [0].

Definition keyLines : list string :=
  [ "    Event code 314 (BTN_SELECT)";
    "Event: time 1700000000.000001, type 1 (EV_KEY), code 314 (BTN_SELECT), value 1";
    "Event: time 1700000000.000001, -------------- SYN_REPORT ------------";
    "Event: time 1700000000.200001, type 1 (EV_KEY), code 314 (BTN_SELECT), value 0";
    "Event: time 1700000001.000001, type 1 (EV_KEY), code 278 (BTN_BACK), value 1";
    "Event: time 1700000001.200001, type 1 (EV_KEY), code 278 (BTN_BACK), value 0";
    "Event: time 1700000002.000001, type 1 (EV_KEY), code 315 (BTN_START), value 1";
    "Event: time 1700000002.200001, type 1 (EV_KEY), code 315 (BTN_START), value 0" ].

End Samples.

(** * Copying a directory into the working directory *)

Section CopyHere.
Import GoRuntime DtbSelector.

Variable pf : Platform.

(** [fs'] differs from [fs] at most at the paths in [K]. *)
Definition changes_within (K : path -> Prop) (fs fs' : FS) : Prop :=
  forall k, fs' !! k = fs !! k \/ K k.

(** No path of the tree is longer than [D]. *)
Definition bounded (D : nat) (fs : FS) : Prop :=
  forall k v, fs !! k = Some v -> (length k <= D)%nat.

(** The paths that making or writing [t] can touch: [t] and the
    directories above it. *)
Definition on_way_to (t k : path) : Prop := k <> [] /\ k `prefix_of` t.

Lemma changes_within_refl K fs : changes_within K fs fs.
Proof. intros k. left. reflexivity. Qed.

Lemma changes_within_trans K fs1 fs2 fs3 :
  changes_within K fs1 fs2 -> changes_within K fs2 fs3 -> changes_within K fs1 fs3.
Proof.
  intros H12 H23 k. destruct (H23 k) as [E|]; [|right; assumption].
  rewrite E. apply H12.
Qed.

Lemma changes_within_mono (K K' : path -> Prop) fs fs' :
  (forall k, K k -> K' k) -> changes_within K fs fs' -> changes_within K' fs fs'.
Proof. intros HK H k. destruct (H k); [left|right]; auto. Qed.

Lemma bounded_changes D K fs fs' :
  bounded D fs -> changes_within K fs fs' ->
  (forall k, K k -> (length k <= D)%nat) -> bounded D fs'.
Proof.
  intros Hb Hc HK k v Hk. destruct (Hc k) as [E|Kk]; [|auto].
  apply (Hb k v). transitivity (fs' !! k); [symmetry; exact E | exact Hk].
Qed.

Lemma treeDepth_bounded fs : bounded (treeDepth fs) fs.
Proof.
  intros k v Hk. unfold treeDepth. apply max_list_elem_of_le.
  apply list_elem_of_fmap. exists (k, v). split; [reflexivity|].
  apply elem_of_map_to_list. exact Hk.
Qed.

Lemma stripPrefix_Some base targ rel :
  stripPrefix base targ = Some rel -> targ = base ++ rel.
Proof.
  revert targ. induction base as [|b base IH]; intros [|t targ]; simpl; intros H;
    try congruence.
  destruct (decide (b = t)) as [->|]; [|discriminate].
  f_equal. apply IH, H.
Qed.

Lemma stripPrefix_app base rel : stripPrefix base (base ++ rel) = Some rel.
Proof.
  induction base as [|b base IH]; simpl; [reflexivity|].
  destruct (decide (b = b)); [apply IH | congruence].
Qed.

Lemma resolve_Ok fs pre rest n :
  resolve fs pre rest = Ok n -> node_at fs (pre ++ rest) = Some n.
Proof.
  revert pre. induction rest as [|c rest IH]; intros pre; simpl.
  - rewrite app_nil_r. destruct (node_at fs pre); congruence.
  - destruct (node_at fs pre) as [[|d]|]; try discriminate.
    intros H. apply IH in H. rewrite <- app_assoc in H. exact H.
Qed.

Lemma Stat_bounded D fs p n :
  bounded D fs -> Stat fs p = Ok n -> (length p <= D)%nat.
Proof.
  intros Hb H. apply resolve_Ok in H. simpl in H.
  destruct p as [|c p]; [simpl; lia|]. eapply Hb, H.
Qed.

Lemma on_way_to_length t k : on_way_to t k -> (length k <= length t)%nat.
Proof. intros [_ H]. apply prefix_length, H. Qed.

Lemma on_way_to_head t k : on_way_to t k -> head k = head t.
Proof.
  intros [Hne [r ->]]. destruct k; [congruence | reflexivity].
Qed.

Lemma on_way_to_Dir_of t k : on_way_to (Dir_of t) k -> on_way_to t k.
Proof.
  intros [Hne [r Hr]]. split; [assumption|].
  unfold Dir_of in Hr.
  destruct (decide (t = [])) as [->|Ht]; [destruct k; simpl in *; congruence|].
  rewrite (app_removelast_last EmptyString Ht), Hr, <- app_assoc.
  eexists. reflexivity.
Qed.

Lemma mkdirFrom_changes rest : forall pre fs e fs',
  mkdirFrom pre rest fs = (e, fs') ->
  changes_within (fun k => exists a b, rest = a ++ b /\ a <> [] /\ k = pre ++ a) fs fs'.
Proof.
  induction rest as [|c rest IH]; intros pre fs e fs'; simpl.
  - intros H; inversion H; subst. apply changes_within_refl.
  - assert (Hmono : forall fs0 fs1,
      changes_within (fun k => exists a b, rest = a ++ b /\ a <> [] /\ k = (pre ++ [c]) ++ a) fs0 fs1 ->
      changes_within (fun k => exists a b, c :: rest = a ++ b /\ a <> [] /\ k = pre ++ a) fs0 fs1).
    { intros fs0 fs1. apply changes_within_mono. intros k (a & b & -> & Ha & ->).
      exists (c :: a), b. rewrite <- app_assoc. repeat split; congruence. }
    destruct (fs !! (pre ++ [c])) as [[|d]|] eqn:E.
    + intros H. apply Hmono. eapply IH, H.
    + intros H; inversion H; subst. apply changes_within_refl.
    + intros H. apply IH, Hmono in H. intros k.
      destruct (decide (k = pre ++ [c])) as [->|Hk].
      * right. exists [c], rest. repeat split; congruence.
      * destruct (H k) as [Ek|Kk]; [left|right; assumption].
        rewrite Ek. apply lookup_insert_ne. congruence.
Qed.

Lemma MkdirAll_changes t fs e fs' :
  MkdirAll t fs = (e, fs') -> changes_within (on_way_to t) fs fs'.
Proof.
  intros H. apply mkdirFrom_changes in H.
  revert H. apply changes_within_mono. intros k (a & b & -> & Ha & ->).
  split; [assumption | eexists; reflexivity].
Qed.

Lemma insert_changes (t : path) (n : node) (fs : FS) :
  t <> [] -> changes_within (on_way_to t) fs (<[t := n]> fs).
Proof.
  intros Ht k. destruct (decide (k = t)) as [->|Hk].
  - right. split; [assumption | reflexivity].
  - left. apply lookup_insert_ne. congruence.
Qed.

Lemma OpenFile_changes t fs e fs' :
  OpenFile_create_trunc t fs = (e, fs') -> changes_within (on_way_to t) fs fs'.
Proof.
  unfold OpenFile_create_trunc. destruct t as [|c t].
  - intros H; inversion H; subst. apply changes_within_refl.
  - destruct (Stat fs (Dir_of (c :: t))) as [[|d]|err];
      try (intros H; inversion H; subst; apply changes_within_refl).
    intros H. repeat case_match; inversion H; subst;
      first [apply changes_within_refl | apply insert_changes; discriminate].
Qed.

Lemma copyFile_changes src dst fs e fs' :
  copyFile src dst fs = (e, fs') -> changes_within (on_way_to dst) fs fs'.
Proof.
  unfold copyFile. destruct (Open src fs).
  { intros H; inversion H; subst. apply changes_within_refl. }
  destruct (MkdirAll (Dir_of dst) fs) as [[err|] fs1] eqn:Hm;
    apply MkdirAll_changes in Hm;
    apply (changes_within_mono _ _ _ _ (on_way_to_Dir_of dst)) in Hm.
  { intros H; inversion H; subst. exact Hm. }
  destruct (OpenFile_create_trunc dst fs1) as [[err|] fs2] eqn:Ho.
  { apply OpenFile_changes in Ho. intros H; inversion H; subst.
    eapply changes_within_trans; eassumption. }
  assert (Hdst : dst <> []).
  { intros ->. simpl in Ho. discriminate. }
  apply OpenFile_changes in Ho.
  unfold CopyBuffer. intros H.
  apply (changes_within_trans _ _ fs1); [exact Hm|].
  apply (changes_within_trans _ _ fs2); [exact Ho|].
  destruct (node_at fs2 src) as [[|d]|]; inversion H; subst;
    first [apply changes_within_refl | apply insert_changes; assumption].
Qed.

(** The callback of [copyDirectory(src, ".")] on a path below [src] touches
    only the path's image in the working directory and what is above it. *)
Lemma copyDirectory_func_changes src p rel d walkErr fs e fs' :
  stripPrefix src p = Some rel ->
  copyDirectory_func src [] p d walkErr fs = (e, fs') ->
  changes_within (on_way_to rel) fs fs'.
Proof.
  intros Hrel. unfold copyDirectory_func, Rel, JoinPath. rewrite Hrel. simpl.
  destruct walkErr.
  { intros H; inversion H; subst. apply changes_within_refl. }
  destruct (entryIsDir d).
  - apply MkdirAll_changes.
  - apply copyFile_changes.
Qed.

Lemma ReadDir_elem fs p dirs d1 :
  ReadDir fs p = Ok dirs -> d1 ∈ dirs -> is_Some (fs !! (p ++ [d1.1])).
Proof.
  unfold ReadDir. destruct (Stat fs p) as [[|d]|]; try discriminate.
  intros H; inversion H; subst; clear H. intros Hin.
  rewrite merge_sort_Permutation in Hin.
  apply list_elem_of_omap in Hin as ([k n] & Hkn & He).
  unfold entryOf in He. simpl in He.
  destruct (stripPrefix p k) as [[|name [|]]|] eqn:Hs; try discriminate.
  inversion He; subst; clear He. simpl.
  apply stripPrefix_Some in Hs. subst k.
  apply elem_of_map_to_list in Hkn. eexists. exact Hkn.
Qed.

(** The paths a walk below the entry [h] of the source can touch. *)
Definition below (D : nat) (h : string) (k : path) : Prop :=
  (length k <= D)%nat /\ head k = Some h.

Lemma walkEntries_inv D (K : path -> Prop) walk p dirs :
  (forall k, K k -> (length k <= D)%nat) ->
  (forall d1 fs, d1 ∈ dirs -> bounded D fs ->
     exists r fs', walk (p ++ [d1.1]) d1 fs = Some (r, fs') /\ changes_within K fs fs') ->
  forall fs, bounded D fs ->
    exists r fs', walkEntries walk p dirs fs = Some (r, fs') /\ changes_within K fs fs'.
Proof.
  intros HK. induction dirs as [|d1 dirs IH]; intros Hw fs Hb; simpl.
  - eexists _, _. split; [reflexivity | apply changes_within_refl].
  - destruct (Hw d1 fs) as (r & fs1 & -> & Hc); [left | assumption |].
    destruct r as [err|].
    + destruct (decide (err = SkipDir)); eexists _, _; split; try reflexivity; assumption.
    + destruct (IH (fun d fs0 Hd => Hw d fs0 (list_elem_of_further _ _ _ Hd)) fs1)
        as (r & fs2 & -> & Hc2).
      { eapply bounded_changes; eassumption. }
      eexists _, _. split; [reflexivity|]. eapply changes_within_trans; eassumption.
Qed.

(** The walk of [copyDirectory(src, ".")] below an entry [h] of [src]
    returns when its bound exceeds what is left of the depth [D] of the
    tree, and touches only paths that start with [h] and are no longer
    than [D]. *)
Lemma walkDir_inv src D h : forall depth p d fs rel,
  stripPrefix src p = Some rel -> head rel = Some h ->
  bounded D fs -> (length p <= D)%nat -> (D < depth + length p)%nat ->
  exists r fs',
    walkDir depth (copyDirectory_func src []) p d fs = Some (r, fs') /\
    changes_within (below D h) fs fs'.
Proof.
  induction depth as [|depth IH]; intros p d fs rel Hrel Hh Hb Hp Hd; [lia|].
  assert (Hway : forall k, on_way_to rel k -> below D h k).
  { intros k Hk. split.
    - apply on_way_to_length in Hk. apply stripPrefix_Some in Hrel.
      subst p. rewrite length_app in Hp. lia.
    - rewrite (on_way_to_head _ _ Hk). exact Hh. }
  assert (Hlen : forall k, below D h k -> (length k <= D)%nat) by (intros k [? _]; assumption).
  set (fn := copyDirectory_func src []) in *. cbn [walkDir].
  destruct (fn p (Some d) None fs) as [[err|] fs1] eqn:Hfn;
    apply (copyDirectory_func_changes _ _ _ _ _ _ _ _ Hrel) in Hfn;
    apply (changes_within_mono _ _ _ _ Hway) in Hfn.
  { destruct (d.2 && bool_decide (err = SkipDir)); eexists _, _; split;
      try reflexivity; assumption. }
  destruct (negb d.2).
  { eexists _, _; split; [reflexivity | assumption]. }
  assert (Hb1 : bounded D fs1) by (eapply bounded_changes; eassumption).
  destruct (ReadDir fs1 p) as [dirs|rerr] eqn:Hrd.
  - destruct (walkEntries_inv D (below D h) (walkDir depth fn)
                p dirs Hlen) with (fs := fs1) as (r & fs2 & -> & Hc2); [|assumption|].
    + intros d1 fs0 Hd1 Hb0.
      destruct (ReadDir_elem _ _ _ _ Hrd Hd1) as [n Hn].
      apply Hb1 in Hn. rewrite length_app in Hn. simpl in Hn.
      apply (IH _ _ _ (rel ++ [d1.1])); try assumption.
      * apply stripPrefix_Some in Hrel. subst p.
        rewrite <- app_assoc. apply stripPrefix_app.
      * destruct rel; [discriminate | exact Hh].
      * rewrite length_app. simpl. lia.
      * rewrite length_app. simpl. lia.
    + eexists _, _. split; [reflexivity|]. eapply changes_within_trans; eassumption.
  - unfold fn at 1, copyDirectory_func.
    destruct (d.2 && bool_decide (rerr = SkipDir)); eexists _, _; split;
      try reflexivity; assumption.
Qed.

Lemma stripPrefix_self base : stripPrefix base base = Some [].
Proof.
  pose proof (stripPrefix_app base []) as H. rewrite app_nil_r in H. exact H.
Qed.

(** The walk at the root [src], a directory. *)
Lemma walkDir_root src name fs :
  Stat fs src = Ok Dir ->
  exists r fs',
    walkDir (S (treeDepth fs)) (copyDirectory_func src []) src (name, true) fs
      = Some (r, fs') /\
    changes_within (fun k => exists h, head k = Some h /\ is_Some (fs !! (src ++ [h]))) fs fs'.
Proof.
  intros Hst. set (fn := copyDirectory_func src []). cbn [walkDir].
  assert (Hfn : fn src (Some (name, true)) None fs = (None, fs)).
  { unfold fn, copyDirectory_func, Rel. rewrite stripPrefix_self. reflexivity. }
  destruct (fn src _ None fs) as [o fs1].
  inversion Hfn; subst o fs1; clear Hfn. cbn [snd negb].
  assert (Hrd : exists dirs, ReadDir fs src = Ok dirs).
  { unfold ReadDir. rewrite Hst. eexists. reflexivity. }
  destruct Hrd as [dirs Hrd]. rewrite Hrd.
  set (D := treeDepth fs).
  set (K := fun k : path => (length k <= D)%nat /\
              exists h, head k = Some h /\ is_Some (fs !! (src ++ [h]))).
  destruct (walkEntries_inv D K (walkDir D fn) src dirs)
    with (fs := fs) as (r & fs' & Hw & Hc).
  - intros k [? _]. assumption.
  - intros d1 fs0 Hd1 Hb0.
    destruct (ReadDir_elem _ _ _ _ Hrd Hd1) as [n Hn].
    pose proof (treeDepth_bounded fs _ _ Hn) as Hl.
    rewrite length_app in Hl. simpl in Hl. fold D in Hl.
    destruct (walkDir_inv src D d1.1 D (src ++ [d1.1]) d1 fs0 [d1.1])
      as (r & fs' & Hw & Hc); try assumption.
    + apply stripPrefix_app.
    + reflexivity.
    + rewrite length_app. simpl. lia.
    + rewrite length_app. simpl. lia.
    + eexists _, _. split; [exact Hw|]. revert Hc. apply changes_within_mono.
      intros k [Hk Hh]. split; [assumption|]. exists d1.1. split; [assumption|].
      eexists. exact Hn.
  - apply treeDepth_bounded.
  - eexists _, _. split; [exact Hw|]. revert Hc. apply changes_within_mono.
    intros k [_ H]. exact H.
Qed.

(** [copyDirectory(src, ".")] returns, and touches only paths that start
    with the name of an entry of [src]. *)
Lemma copyHere_inv src fs :
  exists r fs',
    copyHere pf src fs = Some (r, fs') /\
    changes_within (fun k => exists h, head k = Some h /\ is_Some (fs !! (src ++ [h]))) fs fs'.
Proof.
  unfold copyHere, copyDirectory. change (Join ["."]) with (@nil string).
  destruct (Stat fs src) as [info|err] eqn:Hst.
  2:{ eexists _, _. split; [reflexivity | apply changes_within_refl]. }
  destruct info as [|data]; cbn [IsDir negb].
  2:{ eexists _, _. split; [reflexivity | apply changes_within_refl]. }
  unfold WalkDir, Lstat. rewrite Hst. cbn [IsDir].
  destruct (walkDir_root src (lastName src) fs Hst) as (r & fs' & -> & Hc).
  destruct r as [err|].
  - destruct (bool_decide (err = SkipDir) || bool_decide (err = SkipAll));
      eexists _, _; split; try reflexivity; assumption.
  - eexists _, _; split; [reflexivity | assumption].
Qed.

(** [copyDirectory(src, ".")] returns: the bound on the nesting of the walk
    is never reached. *)
Lemma copyHere_returns src fs :
  exists err fs', copyHere pf src fs = Some (err, fs').
Proof.
  destruct (copyHere_inv src fs) as (r & fs' & H & _). eauto.
Qed.

(** It makes an entry [.cn] in the working directory only out of an entry
    [.cn] of [src]. *)
Lemma copyHere_cn src fs err fs' :
  copyHere pf src fs = Some (err, fs') ->
  fs !! (src ++ [".cn"]) = None ->
  fs' !! [".cn"] = fs !! [".cn"].
Proof.
  intros H Hcn. destruct (copyHere_inv src fs) as (r & fs1 & H1 & Hc).
  rewrite H in H1. inversion H1; subst.
  destruct (Hc [".cn"]) as [E | (h & Hh & Hsome)]; [exact E|].
  simpl in Hh. inversion Hh; subst. rewrite Hcn in Hsome.
  destruct Hsome; discriminate.
Qed.

(** ** What a copy leaves behind *)

(** The errors of the calls on the tree. None of them is [SkipDir] or
    [SkipAll], so the walk never takes one for a request to skip. *)
Definition osError (e : error) : Prop :=
  e = ENOENT \/ e = ENOTDIR \/ e = EISDIR \/ e = ErrRel.

Lemma osError_noSkip e : osError e -> e <> SkipDir /\ e <> SkipAll.
Proof. intros [-> | [-> | [-> | ->]]]; split; discriminate. Qed.

Lemma resolve_osError fs rest : forall pre e,
  resolve fs pre rest = Err e -> osError e.
Proof.
  induction rest as [|c rest IH]; intros pre e; simpl.
  - destruct (node_at fs pre); intros H; inversion H. left. reflexivity.
  - destruct (node_at fs pre) as [[|d]|]; intros H.
    + eapply IH, H.
    + inversion H. right. left. reflexivity.
    + inversion H. left. reflexivity.
Qed.

Lemma mkdirFrom_osError rest : forall pre fs e fs',
  mkdirFrom pre rest fs = (Some e, fs') -> osError e.
Proof.
  induction rest as [|c rest IH]; intros pre fs e fs'; simpl; [discriminate|].
  destruct (fs !! (pre ++ [c])) as [[|d]|].
  - apply IH.
  - intros H; inversion H. right. left. reflexivity.
  - apply IH.
Qed.

Lemma OpenFile_osError t fs e fs' :
  OpenFile_create_trunc t fs = (Some e, fs') -> osError e.
Proof.
  unfold OpenFile_create_trunc. destruct t as [|c t].
  - intros H; inversion H. right. right. left. reflexivity.
  - destruct (Stat fs (Dir_of (c :: t))) as [[|d]|err] eqn:Hst.
    + intros H. repeat case_match; inversion H; subst.
      right. right. left. reflexivity.
    + intros H; inversion H. right. left. reflexivity.
    + intros H; inversion H; subst. eapply resolve_osError, Hst.
Qed.

Lemma copyFile_osError src dst fs e fs' :
  copyFile src dst fs = (Some e, fs') -> osError e.
Proof.
  unfold copyFile, Open.
  destruct (Stat fs src) as [n|err] eqn:Hst; simpl.
  2:{ intros H; inversion H; subst. eapply resolve_osError, Hst. }
  destruct (MkdirAll (Dir_of dst) fs) as [[err|] fs1] eqn:Hm.
  { intros H; inversion H; subst. eapply mkdirFrom_osError, Hm. }
  destruct (OpenFile_create_trunc dst fs1) as [[err|] fs2] eqn:Ho.
  { intros H; inversion H; subst. eapply OpenFile_osError, Ho. }
  unfold CopyBuffer. destruct (node_at fs2 src) as [[|d]|]; intros H; inversion H.
  - right. right. left. reflexivity.
  - left. reflexivity.
Qed.

Lemma copyDirectory_func_osError src dst p d walkErr fs e fs' :
  (forall w, walkErr = Some w -> osError w) ->
  copyDirectory_func src dst p d walkErr fs = (Some e, fs') -> osError e.
Proof.
  intros Hw. unfold copyDirectory_func. destruct walkErr as [w|].
  { intros H; inversion H; subst. apply Hw. reflexivity. }
  unfold Rel. destruct (stripPrefix src p).
  - destruct (entryIsDir d); [apply mkdirFrom_osError | apply copyFile_osError].
  - intros H; inversion H. right. right. right. reflexivity.
Qed.

Lemma ReadDir_osError fs p e : ReadDir fs p = Err e -> osError e.
Proof.
  unfold ReadDir. destruct (Stat fs p) as [[|d]|err] eqn:Hst; intros H; inversion H; subst.
  - right. left. reflexivity.
  - eapply resolve_osError, Hst.
Qed.

(** An error with which the walk of [copyDirectory] ends is one of these. *)
Lemma walkDir_osError src dst : forall depth p d fs e fs',
  walkDir depth (copyDirectory_func src dst) p d fs = Some (Some e, fs') -> osError e.
Proof.
  induction depth as [|depth IH]; intros p d fs e fs'; [discriminate|].
  set (fn := copyDirectory_func src dst) in *. cbn [walkDir].
  destruct (fn p (Some d) None fs) as [[err|] fs1] eqn:Hfn.
  { apply copyDirectory_func_osError in Hfn; [|discriminate].
    destruct (osError_noSkip _ Hfn) as [Hs _].
    rewrite (bool_decide_eq_false_2 _ Hs), andb_false_r.
    intros H; inversion H; subst. exact Hfn. }
  destruct (negb d.2); [discriminate|].
  destruct (ReadDir fs1 p) as [dirs|rerr] eqn:Hrd.
  - clear Hfn Hrd. revert fs1. induction dirs as [|d1 dirs IHd]; intros fs1; simpl;
      [discriminate|].
    destruct (walkDir depth fn (p ++ [d1.1]) d1 fs1) as [[[err|] fs2]|] eqn:Hw;
      [|apply IHd|discriminate].
    apply IH in Hw. destruct (osError_noSkip _ Hw) as [Hs _].
    destruct (decide (err = SkipDir)); [contradiction|].
    intros H; inversion H; subst. exact Hw.
  - apply ReadDir_osError in Hrd.
    destruct (fn p (Some d) (Some rerr) fs1) as [[err|] fs2] eqn:Hfn2; [|discriminate].
    apply copyDirectory_func_osError in Hfn2;
      [|intros w Hw; inversion Hw; subst; exact Hrd].
    destruct (osError_noSkip _ Hfn2) as [Hs _].
    rewrite (bool_decide_eq_false_2 _ Hs), andb_false_r.
    intros H; inversion H; subst. exact Hfn2.
Qed.

(** Path resolution along a path that continues. *)
Lemma resolve_app fs a : forall pre b, b <> [] ->
  resolve fs pre (a ++ b) =
  match resolve fs pre a with
  | Ok Dir => resolve fs (pre ++ a) b
  | Ok (File _) => Err ENOTDIR
  | Err e => Err e
  end.
Proof.
  induction a as [|c a IH]; intros pre b Hb.
  - destruct b as [|c b]; [congruence|]. simpl. rewrite app_nil_r.
    destruct (node_at fs pre) as [[|d]|]; reflexivity.
  - simpl. destruct (node_at fs pre) as [[|d]|]; try reflexivity.
    rewrite (IH _ _ Hb), <- app_assoc. reflexivity.
Qed.

Lemma Stat_prefix_Dir fs a b n :
  Stat fs (a ++ b) = Ok n -> b <> [] -> Stat fs a = Ok Dir.
Proof.
  unfold Stat. intros H Hb. rewrite (resolve_app _ _ _ _ Hb) in H.
  destruct (resolve fs [] a) as [[|d]|e]; [reflexivity | discriminate | discriminate].
Qed.

Lemma Stat_lookup fs p n : p <> [] -> Stat fs p = Ok n -> fs !! p = Some n.
Proof.
  intros Hp H. apply resolve_Ok in H. simpl in H. destruct p; [congruence | exact H].
Qed.

Lemma node_at_lookup (fs : FS) p : p <> [] -> node_at fs p = fs !! p.
Proof. destruct p; [congruence | reflexivity]. Qed.

Lemma Stat_child fs p c n :
  Stat fs p = Ok Dir -> fs !! (p ++ [c]) = Some n -> Stat fs (p ++ [c]) = Ok n.
Proof.
  unfold Stat. intros Hp Hc. rewrite resolve_app by discriminate. rewrite Hp.
  apply resolve_Ok in Hp. cbn [resolve app] in *. rewrite Hp.
  rewrite node_at_lookup by (destruct p; discriminate). rewrite Hc. reflexivity.
Qed.

(** [MkdirAll] that succeeds: what it changes is a missing directory on the
    way that it made, and the directory asked for is there. *)
Lemma mkdirFrom_made rest : forall pre fs fs',
  mkdirFrom pre rest fs = (None, fs') ->
  (forall k, fs' !! k = fs !! k \/
     (fs' !! k = Some Dir /\ exists a b, rest = a ++ b /\ a <> [] /\ k = pre ++ a)) /\
  (rest <> [] -> fs' !! (pre ++ rest) = Some Dir).
Proof.
  induction rest as [|c rest IH]; intros pre fs fs'; simpl.
  - intros H; inversion H; subst. split; [left; reflexivity | congruence].
  - assert (Hlift : forall k,
        (exists a b, rest = a ++ b /\ a <> [] /\ k = (pre ++ [c]) ++ a) ->
        exists a b, c :: rest = a ++ b /\ a <> [] /\ k = pre ++ a).
    { intros k (a & b & -> & Ha & ->). exists (c :: a), b.
      rewrite <- app_assoc. repeat split; congruence. }
    assert (Hlast : forall fs1 : FS,
        fs1 !! (pre ++ [c]) = Some Dir ->
        (rest <> [] -> fs1 !! ((pre ++ [c]) ++ rest) = Some Dir) ->
        fs1 !! (pre ++ c :: rest) = Some Dir).
    { intros fs1 H1 H2. destruct rest as [|c2 rest2]; [exact H1|].
      rewrite <- app_assoc in H2. apply H2. discriminate. }
    destruct (fs !! (pre ++ [c])) as [[|d]|] eqn:E; [|discriminate|].
    + intros H. destruct (IH _ _ _ H) as [Hk Hl]. split.
      * intros k. destruct (Hk k) as [Ek | [Ek Hab]]; [left; exact Ek|].
        right. split; [exact Ek | apply Hlift, Hab].
      * intros _. apply Hlast; [|exact Hl].
        destruct (Hk (pre ++ [c])) as [Ek | [Ek _]]; [|exact Ek].
        rewrite Ek. exact E.
    + intros H. destruct (IH _ _ _ H) as [Hk Hl].
      assert (Hpc : fs' !! (pre ++ [c]) = Some Dir).
      { destruct (Hk (pre ++ [c])) as [Ek | [Ek _]]; [|exact Ek].
        rewrite Ek. apply lookup_insert_eq. }
      split.
      * intros k. destruct (decide (k = pre ++ [c])) as [->|Hne].
        -- right. split; [exact Hpc|]. exists [c], rest. repeat split; congruence.
        -- destruct (Hk k) as [Ek | [Ek Hab]].
           ++ left. rewrite Ek. apply lookup_insert_ne. congruence.
           ++ right. split; [exact Ek | apply Hlift, Hab].
      * intros _. apply Hlast; [exact Hpc | exact Hl].
Qed.

(** The node that a copy of [src] into the working directory is to leave
    at the path [k]: the one that [k] names below [src]. *)
Definition image (src : path) (fs : FS) (k : path) : option node :=
  match k with
  | [] => None
  | _ => match Stat fs (src ++ k) with Ok n => Some n | Err _ => None end
  end.

Lemma ReadDir_spec fs p dirs :
  ReadDir fs p = Ok dirs ->
  forall name b,
    (name, b) ∈ dirs <-> exists n, fs !! (p ++ [name]) = Some n /\ b = IsDir n.
Proof.
  unfold ReadDir. destruct (Stat fs p) as [[|d]|]; try discriminate.
  intros H; inversion H; subst; clear H. intros name b.
  rewrite merge_sort_Permutation, list_elem_of_omap. split.
  - intros ([k n] & Hkn & He). unfold entryOf in He. simpl in He.
    destruct (stripPrefix p k) as [[|nm [|]]|] eqn:Hs; try discriminate.
    inversion He; subst. apply stripPrefix_Some in Hs. subst k.
    apply elem_of_map_to_list in Hkn. eauto.
  - intros (n & Hk & ->). exists (p ++ [name], n).
    split; [apply elem_of_map_to_list; exact Hk|].
    unfold entryOf. simpl. rewrite stripPrefix_app. reflexivity.
Qed.

Section Overlay.

(** The directory that is copied and the tree at the start. The directory
    does not hold a copy of its own path: no [src/src/...]. *)
Variable src : path.
Variable fs0 : FS.
Hypothesis src_nonempty : src <> [].
Hypothesis no_overlap : forall k, fs0 !! (src ++ src ++ k) = None.

(** Every path holds what it held before or what the copy is to leave
    there. *)
Definition step (fs fs' : FS) : Prop :=
  forall k, fs' !! k = fs !! k \/
            (exists n, image src fs0 k = Some n /\ fs' !! k = Some n).

Lemma step_refl fs : step fs fs.
Proof. intros k. left. reflexivity. Qed.

Lemma step_trans fs1 fs2 fs3 : step fs1 fs2 -> step fs2 fs3 -> step fs1 fs3.
Proof.
  intros H12 H23 k. destruct (H23 k) as [E|R]; [|right; exact R].
  rewrite E. apply H12.
Qed.

Lemma step_keeps fs fs' k n :
  step fs fs' -> image src fs0 k = Some n -> fs !! k = Some n -> fs' !! k = Some n.
Proof.
  intros H Hi Hk. destruct (H k) as [E | (n' & Hi' & E)]; [rewrite E; exact Hk|].
  rewrite Hi in Hi'. inversion Hi'; subst. exact E.
Qed.

Lemma image_Some k n :
  k <> [] -> Stat fs0 (src ++ k) = Ok n -> image src fs0 k = Some n.
Proof. intros Hk H. unfold image. destruct k; [congruence|]. rewrite H. reflexivity. Qed.

Lemma image_Stat k n :
  image src fs0 k = Some n -> k <> [] /\ Stat fs0 (src ++ k) = Ok n.
Proof.
  unfold image. destruct k as [|c k]; [discriminate|].
  destruct (Stat fs0 (src ++ c :: k)); intros H; inversion H; subst.
  split; [discriminate | reflexivity].
Qed.

Lemma src_app_nonempty z : src ++ z <> [].
Proof. destruct src; [congruence | discriminate]. Qed.

Lemma src_app_longer z : (length z < length (src ++ z))%nat.
Proof. rewrite length_app. destruct src; [congruence | simpl; lia]. Qed.

(** The source is as it was. *)
Lemma step_source fs z : step fs0 fs -> fs !! (src ++ z) = fs0 !! (src ++ z).
Proof.
  intros H. destruct (H (src ++ z)) as [E | (n & Hi & _)]; [exact E|].
  apply image_Stat in Hi as [_ Hi]. apply Stat_lookup in Hi; [|apply src_app_nonempty].
  rewrite no_overlap in Hi. discriminate.
Qed.

Lemma MkdirAll_step t fs fs' :
  (forall a b, t = a ++ b -> a <> [] -> Stat fs0 (src ++ a) = Ok Dir) ->
  MkdirAll t fs = (None, fs') ->
  step fs fs' /\ (t <> [] -> fs' !! t = Some Dir) /\
  (forall k, ~ k `prefix_of` t -> fs' !! k = fs !! k).
Proof.
  intros Ht H. apply mkdirFrom_made in H as [Hk Hl]. simpl in *. split; [|split].
  - intros k. destruct (Hk k) as [E | [E (a & b & Hab & Ha & ->)]]; [left; exact E|].
    right. exists Dir. split; [|exact E]. apply image_Some; [exact Ha|].
    eapply Ht; eassumption.
  - exact Hl.
  - intros k Hn. destruct (Hk k) as [E | [_ (a & b & Hab & _ & ->)]]; [exact E|].
    exfalso. apply Hn. exists b. exact Hab.
Qed.

Lemma copyFile_step rel data fs fs' :
  Stat fs0 (src ++ rel) = Ok (File data) -> step fs0 fs ->
  copyFile (src ++ rel) rel fs = (None, fs') ->
  step fs fs' /\ fs' !! rel = Some (File data).
Proof.
  intros Hst H0. unfold copyFile. destruct (Open _ fs); [discriminate|].
  destruct (MkdirAll (Dir_of rel) fs) as [[err|] fsA] eqn:Hm; [discriminate|].
  destruct (OpenFile_create_trunc rel fsA) as [[err|] fsB] eqn:Ho; [discriminate|].
  assert (Hrel : rel <> []) by (intros ->; simpl in Ho; discriminate).
  assert (HB : fsB = <[rel := File EmptyString]> fsA).
  { unfold OpenFile_create_trunc in Ho. destruct rel; [congruence|].
    repeat case_match; try discriminate; inversion Ho; reflexivity. }
  pose proof (app_removelast_last EmptyString Hrel) as Hsplit. fold (Dir_of rel) in Hsplit.
  apply MkdirAll_step in Hm as (HsA & _ & HoutA).
  2:{ intros a b Hab Ha. apply (Stat_prefix_Dir _ _ (b ++ [List.last rel EmptyString]) (File data)).
      - rewrite <- app_assoc, (app_assoc a), <- Hab, <- Hsplit. exact Hst.
      - destruct b; discriminate. }
  assert (Hp : fsB !! (src ++ rel) = Some (File data)).
  { subst fsB. rewrite lookup_insert_ne.
    2:{ intros E. pose proof (src_app_longer rel) as Hl. rewrite <- E in Hl. lia. }
    rewrite HoutA.
    2:{ intros Hpre. apply prefix_length in Hpre. pose proof (src_app_longer rel) as Hl.
        rewrite Hsplit in Hl at 1. rewrite length_app in Hl. simpl in Hl. lia. }
    rewrite (step_source _ _ H0). apply Stat_lookup; [apply src_app_nonempty | exact Hst]. }
  unfold CopyBuffer. rewrite node_at_lookup by apply src_app_nonempty. rewrite Hp.
  intros H; inversion H; subst fs'; clear H. split.
  - intros k. destruct (decide (k = rel)) as [->|Hne].
    + right. exists (File data). split; [apply image_Some; assumption|].
      apply lookup_insert_eq.
    + rewrite lookup_insert_ne by congruence. subst fsB.
      rewrite lookup_insert_ne by congruence. apply HsA.
  - apply lookup_insert_eq.
Qed.

(** Everything below [src ++ rel] has its copy below [rel]. *)
Definition copied (fs' : FS) (rel : path) : Prop :=
  forall x m, Stat fs0 (src ++ rel ++ x) = Ok m -> rel ++ x <> [] ->
              fs' !! (rel ++ x) = Some m.

Lemma fn_dir rel name fs :
  copyDirectory_func src [] (src ++ rel) (Some (name, true)) None fs = MkdirAll rel fs.
Proof. unfold copyDirectory_func, Rel. rewrite stripPrefix_app. reflexivity. Qed.

Lemma fn_file rel name fs :
  copyDirectory_func src [] (src ++ rel) (Some (name, false)) None fs
  = copyFile (src ++ rel) rel fs.
Proof. unfold copyDirectory_func, Rel. rewrite stripPrefix_app. reflexivity. Qed.

Lemma walkDir_copies : forall depth rel d n fs fs',
  Stat fs0 (src ++ rel) = Ok n -> d.2 = IsDir n -> step fs0 fs ->
  walkDir depth (copyDirectory_func src []) (src ++ rel) d fs = Some (None, fs') ->
  step fs fs' /\ copied fs' rel.
Proof.
  induction depth as [|depth IH]; intros rel [name b] n fs fs' Hst Hd H0; [discriminate|].
  simpl in Hd. subst b. cbn [walkDir]. destruct n as [|data]; cbn [IsDir snd].
  - rewrite fn_dir. destruct (MkdirAll rel fs) as [[err|] fs1] eqn:Hm.
    { apply mkdirFrom_osError in Hm. destruct (osError_noSkip _ Hm) as [Hs _].
      rewrite (bool_decide_eq_false_2 _ Hs). discriminate. }
    cbn [negb].
    apply MkdirAll_step in Hm as (Hs1 & Hrel1 & _).
    2:{ intros a b Hab Ha. destruct b as [|c b].
        - rewrite app_nil_r in Hab. subst a. exact Hst.
        - apply (Stat_prefix_Dir _ _ (c :: b) Dir); [|discriminate].
          rewrite <- app_assoc, <- Hab. exact Hst. }
    assert (H01 : step fs0 fs1) by (eapply step_trans; eassumption).
    destruct (ReadDir fs1 (src ++ rel)) as [dirs|rerr] eqn:Hrd.
    2:{ apply ReadDir_osError in Hrd. destruct (osError_noSkip _ Hrd) as [Hs _].
        unfold copyDirectory_func. rewrite (bool_decide_eq_false_2 _ Hs). discriminate. }
    assert (Hent : forall nm b, (nm, b) ∈ dirs ->
              exists n1, Stat fs0 (src ++ rel ++ [nm]) = Ok n1 /\ b = IsDir n1).
    { intros nm b Hin. apply (ReadDir_spec _ _ _ Hrd) in Hin as (n1 & Hk & ->).
      exists n1. split; [|reflexivity].
      rewrite <- app_assoc, (step_source _ _ H01) in Hk.
      rewrite app_assoc. apply Stat_child; [exact Hst|].
      rewrite <- app_assoc. exact Hk. }
    assert (Hwalk : forall dirs' fsA fsZ,
              (forall d1, d1 ∈ dirs' -> d1 ∈ dirs) -> step fs0 fsA ->
              walkEntries (walkDir depth (copyDirectory_func src [])) (src ++ rel) dirs' fsA
                = Some (None, fsZ) ->
              step fsA fsZ /\ forall d1, d1 ∈ dirs' -> copied fsZ (rel ++ [d1.1])).
    { induction dirs' as [|d1 dirs' IHd]; intros fsA fsZ Hsub HA; simpl.
      - intros H; inversion H; subst. split; [apply step_refl|].
        intros d1 Hd1. inversion Hd1.
      - rewrite <- app_assoc.
        destruct (walkDir depth _ (src ++ rel ++ [d1.1]) d1 fsA) as [[[err|] fsB]|] eqn:Hw;
          [| |discriminate].
        { apply walkDir_osError in Hw. destruct (osError_noSkip _ Hw) as [Hs _].
          destruct (decide (err = SkipDir)); [contradiction | discriminate]. }
        intros Hrest.
        destruct d1 as [nm b]. destruct (Hent nm b) as (n1 & Hst1 & Hb1);
          [apply Hsub; left|].
        cbn [fst] in Hw.
        apply (IH (rel ++ [nm]) (nm, b) n1) in Hw as [HAB Hc1];
          [|exact Hst1 | exact Hb1 | exact HA].
        apply IHd in Hrest as [HBZ Hcs];
          [|intros d Hd; apply Hsub; right; exact Hd | eapply step_trans; eassumption].
        split; [eapply step_trans; eassumption|].
        intros d Hd. apply elem_of_cons in Hd as [-> | Hd]; [|apply Hcs, Hd].
        intros x m Hx Hne. simpl in *.
        apply (step_keeps fsB); [exact HBZ | | apply Hc1; assumption].
        apply image_Some; [exact Hne|]. rewrite <- app_assoc in Hx |- *. exact Hx. }
    intros Hw. apply Hwalk in Hw as [H1Z Hcs]; [|auto | exact H01].
    split; [eapply step_trans; eassumption|].
    intros x m Hx Hne. destruct x as [|c x].
    + rewrite app_nil_r in *. rewrite Hst in Hx. inversion Hx; subst m.
      apply (step_keeps fs1); [exact H1Z | apply image_Some; assumption | auto].
    + assert (Hc : exists n1, Stat fs0 (src ++ rel ++ [c]) = Ok n1).
      { destruct x as [|c2 x]; [eauto|]. exists Dir.
        apply (Stat_prefix_Dir _ _ (c2 :: x) m); [|discriminate].
        rewrite <- !app_assoc. exact Hx. }
      destruct Hc as [n1 Hn1].
      assert (Hin : (c, IsDir n1) ∈ dirs).
      { apply (ReadDir_spec _ _ _ Hrd). exists n1. split; [|reflexivity].
        rewrite <- app_assoc, (step_source _ _ H01).
        apply Stat_lookup; [apply src_app_nonempty | exact Hn1]. }
      specialize (Hcs _ Hin x m). simpl in Hcs. rewrite <- !app_assoc in Hcs.
      apply Hcs; [exact Hx | exact Hne].
  - rewrite fn_file. destruct (copyFile (src ++ rel) rel fs) as [[err|] fs1] eqn:Hc.
    { discriminate. }
    cbn [negb]. intros H; inversion H; subst fs1; clear H.
    apply (copyFile_step _ data) in Hc as [Hs Hl]; [|assumption|assumption].
    split; [exact Hs|].
    intros x m Hx Hne. destruct x as [|c x].
    + rewrite app_nil_r in *. rewrite Hst in Hx. inversion Hx; subst m. exact Hl.
    + rewrite app_assoc in Hx.
      apply (Stat_prefix_Dir _ (src ++ rel) (c :: x)) in Hx; [|discriminate].
      rewrite Hst in Hx. discriminate.
Qed.

End Overlay.

(** X2. When [copyDirectory(src, ".")] succeeds, on a tree in which [src] does
    not hold a copy of its own path, the tree it leaves is the old one with
    the content of [src] laid over the working directory: a path that names
    something below [src] holds that node, directory or file with its
    bytes, and every other path holds what it held. In particular the
    source is as it was, and nothing else is made or lost. *)
Theorem copyHere_overlay src fs fs' :
  src <> [] -> (forall k, fs !! (src ++ src ++ k) = None) ->
  copyHere pf src fs = Some (None, fs') ->
  forall k, fs' !! k = match image src fs k with Some n => Some n | None => fs !! k end.
Proof.
  intros Hsrc Hno. unfold copyHere, copyDirectory. change (Join ["."]) with (@nil string).
  destruct (Stat fs src) as [[|data]|err] eqn:Hst; cbn [IsDir negb]; try discriminate.
  unfold WalkDir, Lstat. rewrite Hst. cbn [IsDir].
  destruct (walkDir (S (treeDepth fs)) (copyDirectory_func src []) src
              (lastName src, true) fs) as [[[err|] fs1]|] eqn:Hw; [| |discriminate].
  { apply walkDir_osError in Hw. destruct (osError_noSkip _ Hw) as [H1 H2].
    rewrite (bool_decide_eq_false_2 _ H1), (bool_decide_eq_false_2 _ H2). discriminate. }
  intros H; inversion H; subst fs1; clear H.
  pose proof (walkDir_copies src fs Hsrc Hno (S (treeDepth fs)) []
                (lastName src, true) Dir fs fs') as L.
  rewrite app_nil_r in L.
  destruct (L Hst eq_refl (step_refl src fs fs) Hw) as [Hstep Hcopied].
  intros k. destruct (image src fs k) as [n|] eqn:Hi.
  - apply image_Stat in Hi as [Hk Hi]. apply (Hcopied k n); assumption.
  - destruct (Hstep k) as [E | (n & Hi' & _)]; [exact E | congruence].
Qed.

(** A test of the condition on a given tree. *)
Definition holdsOwnPath (src : path) (fs : FS) : bool :=
  existsb (fun kn : path * node =>
             match stripPrefix (src ++ src) kn.1 with Some _ => true | None => false end)
          (map_to_list fs).

Lemma holdsOwnPath_false (src : path) (fs : FS) :
  holdsOwnPath src fs = false -> forall k, fs !! (src ++ src ++ k) = None.
Proof.
  intros H k. destruct (fs !! (src ++ src ++ k)) as [n|] eqn:E; [|reflexivity].
  apply elem_of_map_to_list in E. apply list_elem_of_In in E.
  assert (Ht : holdsOwnPath src fs = true); [|congruence].
  apply existsb_exists. eexists. split; [exact E|]. simpl.
  rewrite app_assoc, stripPrefix_app. reflexivity.
Qed.

(** ** What a copy never does *)

(** Every entry is still there, and is of the kind it was. *)
Definition stays (fs fs' : FS) : Prop :=
  forall k n, fs !! k = Some n -> exists n', fs' !! k = Some n' /\ IsDir n' = IsDir n.

Lemma stays_refl fs : stays fs fs.
Proof. intros k n H. eauto. Qed.

Lemma stays_trans fs1 fs2 fs3 : stays fs1 fs2 -> stays fs2 fs3 -> stays fs1 fs3.
Proof.
  intros H12 H23 k n Hk. destruct (H12 k n Hk) as (n2 & Hk2 & E2).
  destruct (H23 k n2 Hk2) as (n3 & Hk3 & E3). exists n3. split; congruence.
Qed.

Lemma stays_insert (fs : FS) p n :
  (forall n0, fs !! p = Some n0 -> IsDir n = IsDir n0) -> stays fs (<[p := n]> fs).
Proof.
  intros H k n0 Hk. destruct (decide (k = p)) as [->|Hne].
  - exists n. split; [apply lookup_insert_eq | auto].
  - exists n0. split; [rewrite lookup_insert_ne by congruence; exact Hk | reflexivity].
Qed.

Lemma mkdirFrom_keeps rest : forall pre fs e fs',
  mkdirFrom pre rest fs = (e, fs') -> stays fs fs'.
Proof.
  induction rest as [|c rest IH]; intros pre fs e fs'; simpl.
  - intros H; inversion H; subst. apply stays_refl.
  - destruct (fs !! (pre ++ [c])) as [[|d]|] eqn:E.
    + apply IH.
    + intros H; inversion H; subst. apply stays_refl.
    + intros H. apply IH in H. eapply stays_trans; [|exact H].
      apply stays_insert. intros n0 Hn0. congruence.
Qed.

Lemma OpenFile_keeps t fs e fs' :
  OpenFile_create_trunc t fs = (e, fs') -> stays fs fs'.
Proof.
  unfold OpenFile_create_trunc. destruct t as [|c t].
  - intros H; inversion H; subst. apply stays_refl.
  - intros H. repeat case_match; inversion H; subst; try apply stays_refl.
    all: apply stays_insert; intros n0 Hn0.
    all: match goal with
         | Hv : _ = Some (File ?d) |- _ =>
             assert (E : Some n0 = Some (File d))
               by (etransitivity; [symmetry; exact Hn0 | exact Hv])
         | Hv : _ = @None node |- _ =>
             assert (E : Some n0 = None)
               by (etransitivity; [symmetry; exact Hn0 | exact Hv])
         end.
    all: inversion E; reflexivity.
Qed.

Lemma OpenFile_made t fs fs' :
  OpenFile_create_trunc t fs = (None, fs') ->
  t <> [] /\ fs' = <[t := File EmptyString]> fs.
Proof.
  unfold OpenFile_create_trunc. destruct t as [|c t]; [discriminate|].
  intros H. repeat case_match; try discriminate; inversion H;
    (split; [discriminate | reflexivity]).
Qed.

Lemma copyFile_keeps src dst fs e fs' : copyFile src dst fs = (e, fs') -> stays fs fs'.
Proof.
  unfold copyFile. destruct (Open src fs).
  { intros H; inversion H; subst. apply stays_refl. }
  destruct (MkdirAll (Dir_of dst) fs) as [[err|] fs1] eqn:Hm; apply mkdirFrom_keeps in Hm.
  { intros H; inversion H; subst. exact Hm. }
  destruct (OpenFile_create_trunc dst fs1) as [[err|] fs2] eqn:Ho.
  { apply OpenFile_keeps in Ho. intros H; inversion H; subst.
    eapply stays_trans; eassumption. }
  pose proof (OpenFile_keeps _ _ _ _ Ho) as Hk2.
  apply OpenFile_made in Ho as [Hdst ->].
  unfold CopyBuffer. intros H.
  apply (stays_trans _ fs1); [exact Hm|].
  apply (stays_trans _ _ _ Hk2).
  repeat case_match; inversion H; subst; try apply stays_refl.
  apply stays_insert. intros n0 Hn0. rewrite lookup_insert_eq in Hn0.
  inversion Hn0. reflexivity.
Qed.

Lemma copyDirectory_func_keeps src dst p d walkErr fs e fs' :
  copyDirectory_func src dst p d walkErr fs = (e, fs') -> stays fs fs'.
Proof.
  unfold copyDirectory_func. destruct walkErr.
  { intros H; inversion H; subst. apply stays_refl. }
  destruct (Rel src p).
  - destruct (entryIsDir d); [apply mkdirFrom_keeps | apply copyFile_keeps].
  - intros H; inversion H; subst. apply stays_refl.
Qed.

Lemma walkDir_keeps src dst : forall depth p d fs r fs',
  walkDir depth (copyDirectory_func src dst) p d fs = Some (r, fs') -> stays fs fs'.
Proof.
  induction depth as [|depth IH]; intros p d fs r fs'; [discriminate|].
  set (fn := copyDirectory_func src dst) in *. cbn [walkDir].
  destruct (fn p (Some d) None fs) as [[err|] fs1] eqn:Hfn;
    apply copyDirectory_func_keeps in Hfn.
  { destruct (d.2 && bool_decide (err = SkipDir)); intros H; inversion H; subst; exact Hfn. }
  destruct (negb d.2).
  { intros H; inversion H; subst. exact Hfn. }
  destruct (ReadDir fs1 p) as [dirs|rerr].
  - intros Hw. apply (stays_trans _ fs1); [exact Hfn|]. clear Hfn.
    revert fs1 Hw. induction dirs as [|d1 dirs IHd]; intros fs1; simpl.
    + intros H; inversion H; subst. apply stays_refl.
    + destruct (walkDir depth fn (p ++ [d1.1]) d1 fs1) as [[[err|] fs2]|] eqn:Hw;
        [| |discriminate]; apply IH in Hw.
      * destruct (decide (err = SkipDir)); intros H; inversion H; subst; exact Hw.
      * intros H. apply IHd in H. eapply stays_trans; eassumption.
  - destruct (fn p (Some d) (Some rerr) fs1) as [[err|] fs2] eqn:Hfn2;
      apply copyDirectory_func_keeps in Hfn2.
    + destruct (d.2 && bool_decide (err = SkipDir)); intros H; inversion H; subst;
        eapply stays_trans; eassumption.
    + intros H; inversion H; subst. eapply stays_trans; eassumption.
Qed.

Lemma copyHere_keeps src fs r fs' : copyHere pf src fs = Some (r, fs') -> stays fs fs'.
Proof.
  unfold copyHere, copyDirectory.
  destruct (Stat fs src) as [info|err] eqn:Hst.
  2:{ intros H; inversion H; subst. apply stays_refl. }
  destruct (negb (IsDir info)).
  { intros H; inversion H; subst. apply stays_refl. }
  unfold WalkDir, Lstat. rewrite Hst.
  destruct (walkDir _ _ src _ fs) as [[[err|] fs1]|] eqn:Hw; [| |discriminate];
    apply walkDir_keeps in Hw.
  - destruct (_ || _); intros H; inversion H; subst; exact Hw.
  - intros H; inversion H; subst; exact Hw.
Qed.

End CopyHere.

(** * Properties of the DTB selector *)

Section DtbSelectorSpec.
Import GoRuntime DtbSelector.

Variable pf : Platform.
Variable mapToLower : string -> string.
Variable Error : error -> string.

Local Abbreviation readIntChoice := (DtbSelector.readIntChoice pf mapToLower).
Local Abbreviation selectXiFan_loop := (DtbSelector.selectXiFan_loop pf mapToLower).
Local Abbreviation selectXiFan := (DtbSelector.selectXiFan pf mapToLower).
Local Abbreviation main_steps := (DtbSelector.main_steps pf Error).
Local Abbreviation main := (DtbSelector.main pf mapToLower Error).

(** *** What the user types

    [response line] is what [prompt] hands back for a typed line. The menu
    sorts the lines into those that leave, those that pick a console and
    those after which it asks again. *)

Definition response (line : string) : string := TrimSpace (line +:+ nl).

Definition quitToken (resp : string) : bool :=
  let l := ToLower mapToLower resp in
  bool_decide (l = "q") || bool_decide (l = "quit") || bool_decide (l = "exit").

(** [q], [quit], [exit] in any case, or the number 0. *)
Definition quits (line : string) : Prop :=
  quitToken (response line) = true \/ Atoi pf (response line) = (0, None).

(** Neither a number nor a quit token. *)
Definition notNumber (line : string) : Prop :=
  quitToken (response line) = false /\
  exists n e, Atoi pf (response line) = (n, Some e).

(** A number other than 0 outside 1..8. *)
Definition outOfRange (line : string) : Prop :=
  quitToken (response line) = false /\
  exists n, Atoi pf (response line) = (n, None) /\ n <> 0 /\ ~ (1 <= n <= 8).

Definition reprompts (line : string) : Prop := notNumber line \/ outOfRange line.

(** The number [n] of a console, 1..8. *)
Definition selects (n : Z) (line : string) : Prop :=
  quitToken (response line) = false /\
  Atoi pf (response line) = (n, None) /\ 1 <= n <= 8.

(** What the menu answers to a line after which it asks again. *)
Definition reply (line : string) : string :=
  match Atoi pf (response line) with
  | (_, Some _) => hintNumber
  | (_, None) => invalidChoice
  end.

(** The output while the lines [pre] are turned down one after the other. *)
Definition dialogue (pre : list string) : list string :=
  concat (map (fun l => [askChoice; reply l +:+ nl]) pre).

(** The menu as [selectXiFan] prints it, and with the banner of [main]. *)
Definition menuLines : list string :=
  stdout (Println "===========================" (Println "  0. 退出 (q 也可)"
    (printOptions 0 XiFanOptions
      (Println "====== XIFAN 机型选择 ======" (mkConsole [] []))))).

Definition opening : list string :=
  [ "DTB Selector (XIFAN Only)" +:+ nl;
    "选择机型后，会复制对应 consoles/<机型> 和 logo 目录，并创建 .cn 文件。" +:+ nl;
    nl ] ++ menuLines.

Lemma prompt_line msg l rest out :
  prompt msg (mkConsole (l :: rest) out)
  = ((response l, None), mkConsole rest (out ++ [msg])).
Proof. reflexivity. Qed.

Lemma prompt_eof msg out :
  prompt msg (mkConsole [] out)
  = ((EmptyString, Some EOF), mkConsole [] (out ++ [msg])).
Proof. reflexivity. Qed.

Lemma readIntChoice_quitToken msg l rest out :
  quitToken (response l) = true ->
  readIntChoice msg (mkConsole (l :: rest) out)
  = ((0, None), mkConsole rest (out ++ [msg])).
Proof.
  intros Hq. rewrite readIntChoice_body, prompt_line. cbv zeta.
  unfold quitToken in Hq. cbv zeta in Hq. rewrite Hq. reflexivity.
Qed.

Lemma readIntChoice_number msg l rest out n :
  quitToken (response l) = false ->
  Atoi pf (response l) = (n, None) ->
  readIntChoice msg (mkConsole (l :: rest) out)
  = ((n, None), mkConsole rest (out ++ [msg])).
Proof.
  intros Hq Ha. rewrite readIntChoice_body, prompt_line. cbv zeta.
  unfold quitToken in Hq. cbv zeta in Hq. rewrite Hq, Ha. reflexivity.
Qed.

Lemma readIntChoice_notNumber msg l rest out :
  notNumber l ->
  readIntChoice msg (mkConsole (l :: rest) out)
  = readIntChoice msg (mkConsole rest (out ++ [msg; hintNumber +:+ nl])).
Proof.
  intros [Hq (n & e & Ha)]. rewrite readIntChoice_body, prompt_line. cbv zeta.
  unfold quitToken in Hq. cbv zeta in Hq. rewrite Hq, Ha.
  unfold Println, Print. simpl. rewrite <- app_assoc. reflexivity.
Qed.

Lemma readIntChoice_eof msg out :
  readIntChoice msg (mkConsole [] out)
  = ((-1, Some EOF), mkConsole [] (out ++ [msg])).
Proof. rewrite readIntChoice_body, prompt_eof. reflexivity. Qed.

Lemma loop_reprompt l rest out :
  reprompts l ->
  selectXiFan_loop (mkConsole (l :: rest) out)
  = selectXiFan_loop (mkConsole rest (out ++ [askChoice; reply l +:+ nl])).
Proof.
  intros [Hn | Ho].
  - rewrite (selectXiFan_loop_body _ _ (mkConsole (l :: rest) out)).
    rewrite (readIntChoice_notNumber _ _ _ _ Hn).
    rewrite <- selectXiFan_loop_body.
    destruct Hn as [_ (n & e & Ha)]. unfold reply. rewrite Ha. reflexivity.
  - destruct Ho as [Hq (n & Ha & Hn0 & Hr)].
    rewrite (selectXiFan_loop_body _ _ (mkConsole (l :: rest) out)).
    rewrite (readIntChoice_number _ _ _ _ _ Hq Ha).
    destruct (n =? 0) eqn:E0; [lia|].
    assert ((0 <? n) && (n <=? Z.of_nat (length XiFanOptions)) = false) as ->.
    { apply andb_false_iff. simpl.
      destruct (Z.ltb_spec 0 n); [right; apply Z.leb_gt; lia | left; reflexivity]. }
    unfold reply. rewrite Ha.
    unfold Println, Print. simpl. rewrite <- app_assoc. reflexivity.
Qed.

Lemma loop_skip pre rest out :
  Forall reprompts pre ->
  selectXiFan_loop (mkConsole (pre ++ rest) out)
  = selectXiFan_loop (mkConsole rest (out ++ dialogue pre)).
Proof.
  intros H. revert out. induction H as [|l pre Hl _ IH]; intros out.
  - unfold dialogue. simpl. rewrite app_nil_r. reflexivity.
  - simpl. rewrite (loop_reprompt _ _ _ Hl), IH.
    unfold dialogue. simpl. rewrite <- app_assoc. reflexivity.
Qed.

Lemma loop_quit l rest out :
  quits l ->
  selectXiFan_loop (mkConsole (l :: rest) out)
  = Returned ((None, None), mkConsole rest (out ++ [askChoice])).
Proof.
  intros Hq. rewrite selectXiFan_loop_body.
  destruct (quitToken (response l)) eqn:Ht.
  - rewrite (readIntChoice_quitToken _ _ _ _ Ht). reflexivity.
  - destruct Hq as [Hq | Ha]; [congruence|].
    rewrite (readIntChoice_number _ _ _ _ _ Ht Ha). reflexivity.
Qed.

Lemma loop_select n l rest out :
  selects n l ->
  selectXiFan_loop (mkConsole (l :: rest) out)
  = Returned ((Some (Z.to_nat (n - 1)), None), mkConsole rest (out ++ [askChoice])).
Proof.
  intros (Hq & Ha & Hr). rewrite selectXiFan_loop_body.
  rewrite (readIntChoice_number _ _ _ _ _ Hq Ha).
  destruct (n =? 0) eqn:E0; [lia|].
  assert ((0 <? n) && (n <=? Z.of_nat (length XiFanOptions)) = true) as ->.
  { apply andb_true_iff. split; [apply Z.ltb_lt | apply Z.leb_le]; simpl; lia. }
  unfold index.
  assert ((0 <=? n - 1) && (n - 1 <? Z.of_nat (length XiFanOptions)) = true) as ->.
  { apply andb_true_iff. split; [apply Z.leb_le | apply Z.ltb_lt]; simpl; lia. }
  reflexivity.
Qed.

Lemma loop_eof out :
  selectXiFan_loop (mkConsole [] out)
  = Returned ((None, Some EOF), mkConsole [] (out ++ [askChoice])).
Proof. rewrite selectXiFan_loop_body, readIntChoice_eof. reflexivity. Qed.

Lemma selectXiFan_menu stdin out :
  selectXiFan (mkConsole stdin out)
  = selectXiFan_loop (mkConsole stdin (out ++ menuLines)).
Proof.
  unfold DtbSelector.selectXiFan, menuLines, Println, Print. simpl.
  repeat rewrite <- app_assoc. reflexivity.
Qed.

(** [main] up to the end of the menu. *)
Lemma main_menu stdin fs :
  main (mkConsole stdin []) fs =
  match selectXiFan_loop (mkConsole stdin opening) with
  | Panicked => Panicked
  | DepthReached => DepthReached
  | Returned ((_, Some err), c) =>
      Returned (Print ("Error: " +:+ Error err +:+ nl) c, fs)
  | Returned ((None, None), c) => Returned (Println "已退出。" c, fs)
  | Returned ((Some ptr, None), c) =>
      match XiFanOptions !! ptr with
      | None => Panicked
      | Some selected => main_steps selected c fs
      end
  end.
Proof.
  unfold DtbSelector.main. unfold Println at 1 2 3. unfold Print. simpl.
  rewrite selectXiFan_menu. reflexivity.
Qed.

(** A valid selection, after any number of lines that were turned down,
    hands the chosen option to the copying steps. *)
Lemma main_selects n o pre line rest fs :
  Forall reprompts pre -> selects n line ->
  XiFanOptions !! Z.to_nat (n - 1) = Some o ->
  main (mkConsole (pre ++ line :: rest) []) fs
  = main_steps o (mkConsole rest (opening ++ dialogue pre ++ [askChoice])) fs.
Proof.
  intros Hpre Hsel Ho. rewrite main_menu, (loop_skip _ _ _ Hpre).
  rewrite (loop_select _ _ _ _ Hsel), Ho, <- app_assoc. reflexivity.
Qed.

(** The selection loop returns on every input, and never with a pointer
    outside the slice. *)
Lemma selectXiFan_loop_returns c :
  exists ptr err c',
    selectXiFan_loop c = Returned ((ptr, err), c') /\
    (ptr = None \/
     exists choice, 1 <= choice <= Z.of_nat (length XiFanOptions) /\
       index XiFanOptions (choice - 1) = Some (Z.to_nat (choice - 1)) /\
       ptr = Some (Z.to_nat (choice - 1)) /\
       is_Some (XiFanOptions !! Z.to_nat (choice - 1)) /\
       err = None).
Proof.
  remember (length (stdin c)) as k eqn:Hk. revert c Hk.
  induction k as [k IH] using lt_wf_ind. intros c Hk.
  rewrite selectXiFan_loop_body.
  destruct (readIntChoice askChoice c) as [[choice [e|]] c1] eqn:Hr.
  - eexists _, _, _. split; [reflexivity | left; reflexivity].
  - destruct (choice =? 0) eqn:E0.
    + eexists _, _, _. split; [reflexivity | left; reflexivity].
    + destruct ((0 <? choice) && (choice <=? Z.of_nat (length XiFanOptions))) eqn:Er.
      * apply andb_true_iff in Er as [H1 H2].
        apply Z.ltb_lt in H1. apply Z.leb_le in H2.
        assert (Hi : index XiFanOptions (choice - 1) = Some (Z.to_nat (choice - 1))).
        { unfold index.
          assert ((0 <=? choice - 1) && (choice - 1 <? Z.of_nat (length XiFanOptions))
                  = true) as ->; [|reflexivity].
          apply andb_true_iff. split; [apply Z.leb_le | apply Z.ltb_lt]; lia. }
        rewrite Hi. eexists _, _, _. split; [reflexivity|]. right.
        exists choice. repeat split; try lia; try assumption.
        apply lookup_lt_is_Some. lia.
      * apply (IH (length (stdin (Println invalidChoice c1)))); [|reflexivity].
        apply readIntChoice_consumes in Hr. simpl. lia.
Qed.

Lemma selectXiFan_returns (c : Console) :
  exists ptr err c',
    selectXiFan c = Returned ((ptr, err), c') /\
    (ptr = None \/
     exists choice, 1 <= choice <= Z.of_nat (length XiFanOptions) /\
       index XiFanOptions (choice - 1) = Some (Z.to_nat (choice - 1)) /\
       ptr = Some (Z.to_nat (choice - 1)) /\
       is_Some (XiFanOptions !! Z.to_nat (choice - 1)) /\
       err = None).
Proof. unfold DtbSelector.selectXiFan. apply selectXiFan_loop_returns. Qed.

(** C10. For every console (every sequence of user inputs), [selectXiFan]
    returns; the pointer it returns is nil or [&XiFanOptions[choice-1]] for a
    [choice] with [1 <= choice <= len(XiFanOptions)], and the index
    expression [XiFanOptions[choice-1]] is in bounds, so the loop never
    panics. *)
Theorem selectXiFan_in_bounds (c : Console) :
  exists ptr err c',
    selectXiFan c = Returned ((ptr, err), c') /\
    (ptr = None \/
     exists choice, 1 <= choice <= Z.of_nat (length XiFanOptions) /\
       index XiFanOptions (choice - 1) = Some (Z.to_nat (choice - 1)) /\
       ptr = Some (Z.to_nat (choice - 1)) /\
       is_Some (XiFanOptions !! Z.to_nat (choice - 1)) /\
       err = None).
Proof. exact (selectXiFan_returns c). Qed.

(** C6. A line that is neither a number nor a quit token, and a number
    outside 1..8 other than 0, make the menu ask again: the loop goes on
    with the next line, having printed its answer. A line that is 0 or
    [q], [quit], [exit] in any case ends the program, after any number of
    such lines, with the file tree as it was: no directory copied, no [.cn]
    created. *)
Theorem menu_reprompts_and_quits :
  (forall l rest out, reprompts l ->
     selectXiFan_loop (mkConsole (l :: rest) out)
     = selectXiFan_loop (mkConsole rest (out ++ [askChoice; reply l +:+ nl]))) /\
  (forall pre line rest fs, Forall reprompts pre -> quits line ->
     main (mkConsole (pre ++ line :: rest) []) fs
     = Returned (mkConsole rest
                   (opening ++ dialogue pre ++ [askChoice; "已退出。" +:+ nl]),
                 fs)).
Proof.
  split; [apply loop_reprompt|].
  intros pre line rest fs Hpre Hq.
  rewrite main_menu, (loop_skip _ _ _ Hpre), (loop_quit _ _ _ Hq).
  unfold Println, Print. simpl. repeat rewrite <- app_assoc. reflexivity.
Qed.

(** *** The copying steps *)

Local Abbreviation copyHere := (DtbSelector.copyHere pf).

Definition consoleDir (o : Option) : path := Join ["consoles"; Real o].
Definition logoDir (o : Option) : path := Join ["consoles"; Logo o].

(** The tree and the output of a run that returned. *)
Definition treeOf (r : exec (Console * FS)) : option FS :=
  match r with Returned (_, fs) => Some fs | _ => None end.

Definition outputOf (r : exec (Console * FS)) : list string :=
  match r with Returned (c, _) => stdout c | _ => [] end.

(** The steps as the specification lists them for a valid selection,
    each carried out whatever became of the one before: copy
    [consoles/<Real>] here; then, if [consoles/<Logo>] exists, copy it
    here; then create [.cn]. *)
Definition treeAfter (r : option (option error * FS)) (fs : FS) : FS :=
  match r with Some (_, fs') => fs' | None => fs end.

Definition listedSteps (o : Option) (fs : FS) : FS :=
  let fs1 := treeAfter (copyHere (consoleDir o) fs) fs in
  let fs2 :=
    match Stat fs1 (logoDir o) with
    | Ok _ => treeAfter (copyHere (logoDir o) fs1) fs1
    | Err _ => fs1
    end in
  (Create (Join [".cn"]) fs2).2.

(** The logo step when it does not fail: the directory is absent and is
    skipped, or it is there and is copied. *)
Inductive logoStep (o : Option) (fs1 : FS) : list string -> FS -> Prop :=
| logo_absent err :
    Stat fs1 (logoDir o) = Err err ->
    logoStep o fs1 [msgLogoMissing pf (logoDir o)] fs1
| logo_copied info fs2 :
    Stat fs1 (logoDir o) = Ok info ->
    copyHere (logoDir o) fs1 = Some (None, fs2) ->
    logoStep o fs1 [msgCopyingLogo o] fs2.

(** The three ways in which [main] reports that the copy did not work, with
    what it prints and the tree it leaves: the console directory is
    missing, copying it fails, copying a logo directory that is there
    fails. *)
Inductive copyError (o : Option) (fs : FS) : list string -> FS -> Prop :=
| source_missing :
    IsNotExist (errorOf (Stat fs (consoleDir o))) = true ->
    copyError o fs [msgSourceMissing pf (consoleDir o)] fs
| console_copy_fails err fs1 :
    IsNotExist (errorOf (Stat fs (consoleDir o))) = false ->
    copyHere (consoleDir o) fs = Some (Some err, fs1) ->
    copyError o fs [msgCopying o; msgCopyFailed Error err] fs1
| logo_copy_fails fs1 info err fs2 :
    copyHere (consoleDir o) fs = Some (None, fs1) ->
    Logo o <> EmptyString ->
    Stat fs1 (logoDir o) = Ok info ->
    copyHere (logoDir o) fs1 = Some (Some err, fs2) ->
    copyError o fs [msgCopying o; msgCopyingLogo o; msgLogoFailed Error err] fs2.

(** A copied directory holds an entry [.cn] of its own at the moment it is
    copied. *)
Definition copiesCN (o : Option) (fs : FS) : Prop :=
  fs !! (consoleDir o ++ [".cn"]) <> None \/
  exists fs1, copyHere (consoleDir o) fs = Some (None, fs1) /\
              fs1 !! (logoDir o ++ [".cn"]) <> None.

Lemma copyHere_ok_exists src fs fs1 :
  copyHere src fs = Some (None, fs1) ->
  IsNotExist (errorOf (Stat fs src)) = false.
Proof.
  unfold DtbSelector.copyHere, copyDirectory.
  destruct (Stat fs src); [reflexivity | discriminate].
Qed.

Lemma options_have_logo o i :
  XiFanOptions !! i = Some o -> Logo o <> EmptyString.
Proof.
  intros H. do 8 (destruct i as [|i]; [inversion H; discriminate|]). discriminate.
Qed.

Lemma print_app msg stdin out : Print msg (mkConsole stdin out) = mkConsole stdin (out ++ [msg]).
Proof. reflexivity. Qed.

Lemma main_steps_returns o c fs :
  exists c' fs', main_steps o c fs = Returned (c', fs').
Proof.
  assert (Hfin : forall c0 fs0, exists c' fs',
            match createCNFile c0 fs0 with
            | (Some err, (c1, fs1)) => Returned (Print (msgCNFailed Error err) c1, fs1)
            | (None, (c1, fs1)) => Returned (Print (msgDone o) c1, fs1)
            end = Returned (c', fs')).
  { intros c0 fs0. destruct (createCNFile c0 fs0) as [[e|] [c1 fs1]];
      eexists _, _; reflexivity. }
  unfold DtbSelector.main_steps.
  destruct (IsNotExist _); [eexists _, _; reflexivity|].
  destruct (copyHere_returns pf (Join ["consoles"; Real o]) fs) as ([err|] & fs1 & ->);
    [eexists _, _; reflexivity|].
  destruct (negb _); [|apply Hfin].
  destruct (Stat fs1 _); [|apply Hfin].
  destruct (copyHere_returns pf (Join ["consoles"; Logo o]) fs1) as ([err'|] & fs2 & ->);
    [eexists _, _; reflexivity | apply Hfin].
Qed.

(** X1. [main] returns on every input and every tree: it does not panic and
    the walks stay within their bound. *)
Theorem main_returns c fs : exists c' fs', main c fs = Returned (c', fs').
Proof.
  unfold DtbSelector.main.
  destruct (selectXiFan_returns
              (Println EmptyString
                 (Println "选择机型后，会复制对应 consoles/<机型> 和 logo 目录，并创建 .cn 文件。"
                    (Println "DTB Selector (XIFAN Only)" c))))
    as (ptr & err & c1 & -> & Hptr).
  destruct err as [e|]; [destruct ptr; eexists _, _; reflexivity|].
  destruct Hptr as [-> | (choice & _ & _ & -> & [o Ho] & _)];
    [eexists _, _; reflexivity|].
  rewrite Ho. apply main_steps_returns.
Qed.

(** The tree that the copying steps leave depends on the option only through
    [Real] and [Logo]. *)
Lemma main_steps_tree o o' c c' fs :
  Real o = Real o' -> Logo o = Logo o' ->
  treeOf (main_steps o c fs) = treeOf (main_steps o' c' fs).
Proof.
  intros HR HL. unfold DtbSelector.main_steps, createCNFile. rewrite HR, HL.
  destruct (IsNotExist _); [reflexivity|].
  destruct (copyHere _ fs) as [[[err|] fs1]|]; try reflexivity.
  destruct (negb _);
    [destruct (Stat fs1 _);
       [destruct (copyHere _ fs1) as [[[e|] fs2]|]; try reflexivity|]|].
  all: destruct (Create _ _) as [[?|] ?]; reflexivity.
Qed.

(** C1 (as amended). For every valid menu selection [n], made after any
    number of lines that were turned down: when [consoles/<Real>] is copied
    without error, the logo directory is absent or is copied without error,
    and [.cn] can be created, the program does exactly this, in this order,
    and returns: it copies [consoles/<Real>] into the working directory,
    copies the logo directory if it exists, creates [.cn]. The tree it
    leaves is the one these three steps produce and its output lists them. *)
Theorem valid_selection_steps n o pre line rest fs fs1 msgs fs2 fs3 :
  Forall reprompts pre -> selects n line ->
  XiFanOptions !! Z.to_nat (n - 1) = Some o ->
  copyHere (consoleDir o) fs = Some (None, fs1) ->
  logoStep o fs1 msgs fs2 ->
  Create (Join [".cn"]) fs2 = (None, fs3) ->
  main (mkConsole (pre ++ line :: rest) []) fs
  = Returned (mkConsole rest
                (opening ++ dialogue pre ++ [askChoice; msgCopying o] ++ msgs
                 ++ [createdCN +:+ nl; msgDone o]),
              fs3).
Proof.
  intros Hpre Hsel Ho Hcopy Hlogo Hcn.
  rewrite (main_selects _ _ _ _ _ _ Hpre Hsel Ho).
  unfold DtbSelector.main_steps. fold (consoleDir o). fold (logoDir o).
  rewrite (copyHere_ok_exists _ _ _ Hcopy), Hcopy.
  assert (negb (bool_decide (Logo o = EmptyString)) = true) as ->.
  { apply negb_true_iff, bool_decide_eq_false. eapply options_have_logo, Ho. }
  destruct Hlogo as [err Hst | info fs2 Hst Hcopy2]; rewrite Hst.
  - unfold createCNFile. rewrite Hcn. unfold Println. rewrite !print_app.
    repeat rewrite <- app_assoc. reflexivity.
  - rewrite !print_app, Hcopy2. unfold createCNFile. rewrite Hcn.
    unfold Println. rewrite !print_app.
    repeat rewrite <- app_assoc. reflexivity.
Qed.

(** C8. Options 6 and 7 carry the same [Real] and the same [Logo], and for
    every tree a run that selects 6 and a run that selects 7 both return
    and leave the same tree: the same directories were copied, with the
    same result. (The runs differ in the name of the console that the
    messages show.) *)
Theorem options_6_7_same_copies pre l6 l7 rest fs :
  Forall reprompts pre -> selects 6 l6 -> selects 7 l7 ->
  XiFanOptions !! 5%nat = Some (mkOption "XiFan XF40V" "dc40v" "logo/720P/") /\
  XiFanOptions !! 6%nat = Some (mkOption "XiFan DC40V" "dc40v" "logo/720P/") /\
  exists fs',
    treeOf (main (mkConsole (pre ++ l6 :: rest) []) fs) = Some fs' /\
    treeOf (main (mkConsole (pre ++ l7 :: rest) []) fs) = Some fs'.
Proof.
  intros Hpre H6 H7. split; [reflexivity|]. split; [reflexivity|].
  pose proof (main_selects 6 (mkOption "XiFan XF40V" "dc40v" "logo/720P/")
                pre l6 rest fs Hpre H6 eq_refl) as E6.
  pose proof (main_selects 7 (mkOption "XiFan DC40V" "dc40v" "logo/720P/")
                pre l7 rest fs Hpre H7 eq_refl) as E7.
  set (c := mkConsole rest (opening ++ dialogue pre ++ [askChoice])) in *.
  destruct (main_steps_returns (mkOption "XiFan XF40V" "dc40v" "logo/720P/") c fs)
    as (c' & fs' & Hr).
  pose proof (main_steps_tree (mkOption "XiFan XF40V" "dc40v" "logo/720P/")
                (mkOption "XiFan DC40V" "dc40v" "logo/720P/") c c fs eq_refl eq_refl)
    as Ht.
  exists fs'. split.
  - transitivity (treeOf (main_steps (mkOption "XiFan XF40V" "dc40v" "logo/720P/") c fs)).
    + f_equal. exact E6.
    + rewrite Hr. reflexivity.
  - transitivity (treeOf (main_steps (mkOption "XiFan DC40V" "dc40v" "logo/720P/") c fs)).
    + f_equal. exact E7.
    + rewrite <- Ht, Hr. reflexivity.
Qed.

(** C9 (as amended). When the console directory is missing, when copying it
    fails, or when copying a logo directory that is there fails, [main]
    prints the report and returns without calling [createCNFile]: the
    output ends with the report, with no message of [createCNFile], and the
    tree is the one the failed step left. Such a run leaves [.cn] in the
    working directory as it found it, unless a copied directory holds an
    entry [.cn] of its own, which [copyDirectory] copies like any other. *)
Theorem copy_error_skips_createCNFile o c fs msgs fs' :
  copyError o fs msgs fs' ->
  main_steps o c fs = Returned (mkConsole (stdin c) (stdout c ++ msgs), fs') /\
  (forall m, m ∈ msgs ->
     m <> createdCN +:+ nl /\ forall e, m <> msgCNFailed Error e) /\
  (~ copiesCN o fs -> fs' !! [".cn"] = fs !! [".cn"]).
Proof.
  intros H.
  assert (Hmsg : forall m,
            m = msgSourceMissing pf (consoleDir o) \/ m = msgCopying o \/
            m = msgCopyingLogo o \/ (exists e, m = msgCopyFailed Error e) \/
            (exists e, m = msgLogoFailed Error e) ->
            m <> createdCN +:+ nl /\ forall e, m <> msgCNFailed Error e).
  { intros m Hm. split; [|intros e0];
      destruct Hm as [-> | [-> | [-> | [[e ->] | [e ->]]]]];
      intros Heq; cbv in Heq; discriminate. }
  destruct c as [cin cout].
  destruct H as [Hmiss | err fs1 Hex Hcopy | fs1 info err fs2 Hcopy Hlogo Hst Hcopy2];
    unfold DtbSelector.main_steps; fold (consoleDir o); fold (logoDir o).
  - rewrite Hmiss. split; [reflexivity|]. split; [|reflexivity].
    intros m Hm. apply list_elem_of_singleton in Hm as ->. apply Hmsg. tauto.
  - rewrite Hex, Hcopy, !print_app, <- app_assoc. split; [reflexivity|]. split.
    + intros m Hm. apply Hmsg.
      apply elem_of_cons in Hm as [-> | Hm]; [tauto|].
      apply elem_of_cons in Hm as [-> | Hm]; [eauto 6 | inversion Hm].
    + intros Hno. apply (copyHere_cn pf _ _ _ _ Hcopy).
      destruct (fs !! (consoleDir o ++ [".cn"])) eqn:E; [|reflexivity].
      exfalso. apply Hno. left. rewrite E. discriminate.
  - rewrite (copyHere_ok_exists _ _ _ Hcopy), Hcopy.
    assert (negb (bool_decide (Logo o = EmptyString)) = true) as ->.
    { apply negb_true_iff, bool_decide_eq_false, Hlogo. }
    rewrite Hst, !print_app, Hcopy2, !print_app, <- !app_assoc.
    split; [reflexivity|]. split.
    + intros m Hm. apply Hmsg.
      apply elem_of_cons in Hm as [-> | Hm]; [tauto|].
      apply elem_of_cons in Hm as [-> | Hm]; [tauto|].
      apply elem_of_cons in Hm as [-> | Hm]; [eauto 7 | inversion Hm].
    + intros Hno.
      transitivity (fs1 !! [".cn"]).
      * apply (copyHere_cn pf _ _ _ _ Hcopy2).
        destruct (fs1 !! (logoDir o ++ [".cn"])) eqn:E; [|reflexivity].
        exfalso. apply Hno. right. exists fs1. split; [assumption|].
        rewrite E. discriminate.
      * apply (copyHere_cn pf _ _ _ _ Hcopy).
        destruct (fs !! (consoleDir o ++ [".cn"])) eqn:E; [|reflexivity].
        exfalso. apply Hno. left. rewrite E. discriminate.
Qed.

(** *** The end of the input *)

(** X5. When the input ends before a console is picked or the menu is left,
    after any number of lines that were turned down, [main] prints the
    error of the read, [io.EOF], and returns: the tree is as it was. *)
Theorem input_end_reports_EOF pre fs :
  Forall reprompts pre ->
  main (mkConsole pre []) fs
  = Returned (mkConsole []
                (opening ++ dialogue pre ++ [askChoice; "Error: " +:+ Error EOF +:+ nl]),
              fs).
Proof.
  intros Hpre. rewrite main_menu.
  replace (mkConsole pre opening) with (mkConsole (pre ++ []) opening)
    by (rewrite app_nil_r; reflexivity).
  rewrite (loop_skip _ _ _ Hpre), loop_eof.
  unfold Print. simpl. rewrite <- !app_assoc. reflexivity.
Qed.

(** *** The marker and the tree at the end *)

Lemma last_Print msg c : last (stdout (Print msg c)) = Some msg.
Proof. unfold Print. simpl. apply last_snoc. Qed.

(** X4. The report of completion is the last thing printed only after
    [createCNFile] went through: [.cn] is then an empty regular file,
    whatever a file of that name held before, also one that the copy had
    just brought. *)
Theorem completion_leaves_empty_cn o c fs :
  last (outputOf (main_steps o c fs)) = Some (msgDone o) ->
  treeOf (main_steps o c fs) ≫= (.!! [".cn"]) = Some (File EmptyString).
Proof.
  assert (Hfin : forall c0 fs0,
            last (outputOf
                    match createCNFile c0 fs0 with
                    | (Some err, (c1, fs1)) => Returned (Print (msgCNFailed Error err) c1, fs1)
                    | (None, (c1, fs1)) => Returned (Print (msgDone o) c1, fs1)
                    end) = Some (msgDone o) ->
            treeOf
              match createCNFile c0 fs0 with
              | (Some err, (c1, fs1)) => Returned (Print (msgCNFailed Error err) c1, fs1)
              | (None, (c1, fs1)) => Returned (Print (msgDone o) c1, fs1)
              end ≫= (.!! [".cn"]) = Some (File EmptyString)).
  { intros c0 fs0. unfold createCNFile.
    destruct (Create (Join [".cn"]) fs0) as [[err|] fs1] eqn:Hc; simpl.
    - rewrite last_snoc. intros H; cbv in H; discriminate.
    - intros _. apply OpenFile_made in Hc as [_ ->]. apply lookup_insert_eq. }
  unfold DtbSelector.main_steps.
  destruct (IsNotExist _).
  { simpl. rewrite last_snoc. intros H; cbv in H; discriminate. }
  destruct (DtbSelector.copyHere pf _ fs) as [[[err|] fs1]|]; [| |discriminate].
  { simpl. rewrite last_snoc. intros H; cbv in H; discriminate. }
  destruct (negb _); [|apply Hfin].
  destruct (Stat fs1 _); [|apply Hfin].
  destruct (DtbSelector.copyHere pf _ fs1) as [[[err|] fs2]|]; [| |discriminate].
  { simpl. rewrite last_snoc. intros H; cbv in H; discriminate. }
  apply Hfin.
Qed.

Lemma main_steps_keeps o c fs c' fs' :
  main_steps o c fs = Returned (c', fs') -> stays fs fs'.
Proof.
  assert (Hfin : forall c0 fs0,
            stays fs fs0 ->
            match createCNFile c0 fs0 with
            | (Some err, (c1, fs1)) => Returned (Print (msgCNFailed Error err) c1, fs1)
            | (None, (c1, fs1)) => Returned (Print (msgDone o) c1, fs1)
            end = Returned (c', fs') -> stays fs fs').
  { intros c0 fs0 H0. unfold createCNFile.
    destruct (Create (Join [".cn"]) fs0) as [[err|] fs1] eqn:Hc;
      apply OpenFile_keeps in Hc; intros H; inversion H; subst;
      eapply stays_trans; eassumption. }
  unfold DtbSelector.main_steps.
  destruct (IsNotExist _).
  { intros H; inversion H; subst. apply stays_refl. }
  destruct (DtbSelector.copyHere pf _ fs) as [[[err|] fs1]|] eqn:Hc1;
    [| |discriminate]; apply copyHere_keeps in Hc1.
  { intros H; inversion H; subst. exact Hc1. }
  destruct (negb _); [|apply Hfin, Hc1].
  destruct (Stat fs1 _); [|apply Hfin, Hc1].
  destruct (DtbSelector.copyHere pf _ fs1) as [[[err|] fs2]|] eqn:Hc2;
    [| |discriminate]; apply copyHere_keeps in Hc2.
  { intros H; inversion H; subst. eapply stays_trans; eassumption. }
  apply Hfin. eapply stays_trans; eassumption.
Qed.

(** X3. Whatever is typed and whatever the tree holds, a run removes no entry
    and changes the kind of none: a directory is still a directory and a
    regular file still a regular file, though its bytes may have been
    replaced. *)
Theorem main_keeps_entries c fs fs' :
  treeOf (main c fs) = Some fs' -> stays fs fs'.
Proof.
  unfold DtbSelector.main.
  destruct (selectXiFan _) as [[[[ptr|] [err|]] c1]| |]; simpl; try discriminate;
    try (intros H; inversion H; subst; apply stays_refl).
  destruct (XiFanOptions !! ptr) as [o|]; [|discriminate].
  destruct (main_steps o c1 fs) as [[c2 fs2]| |] eqn:Hm; simpl; try discriminate.
  intros H; inversion H; subst. eapply main_steps_keeps, Hm.
Qed.

(** *** The numbers of the menu *)

(** X6. The number that the menu shows before a console is the number that
    picks it: for the option at position [i] the menu has the line with
    [i+1] and its name, and typing [i+1] hands that option to the copying
    steps. *)
Theorem menu_number_selects i o rest fs :
  XiFanOptions !! i = Some o ->
  In ("  " +:+ itoa (i + 1) +:+ ". " +:+ Display o +:+ nl) menuLines /\
  main (mkConsole (itoa (i + 1) :: rest) []) fs
  = main_steps o (mkConsole rest (opening ++ [askChoice])) fs.
Proof.
  intros H.
  assert (Hsel : selects (Z.of_nat (i + 1)) (itoa (i + 1))).
  { do 8 (destruct i as [|i];
          [split; [reflexivity | split; [|simpl; lia]];
           generalize pf; intros []; reflexivity|]).
    discriminate. }
  split.
  - do 8 (destruct i as [|i]; [inversion H; subst; vm_compute; tauto|]). discriminate.
  - apply (main_selects _ _ [] _ rest fs (List.Forall_nil _) Hsel).
    replace (Z.to_nat (Z.of_nat (i + 1) - 1)) with i by lia. exact H.
Qed.

End DtbSelectorSpec.

(** ** The DTB selector on the sample trees *)

Section DtbSelectorRuns.
Import GoRuntime DtbSelector Samples.

Local Abbreviation run := (DtbSelector.main linux lower errText).

(** A call is known by its error and the tree it leaves. *)
Lemma treeAfter_eq (r : option (option error * FS)) (e : option error) (fs : FS) :
  fst <$> r = Some e -> r = Some (e, treeAfter r fs).
Proof. destruct r as [[e' fs']|]; simpl; intros H; inversion H; reflexivity. Qed.

Lemma pair_eq {A B} (x : A * B) (a : A) : x.1 = a -> x = (a, x.2).
Proof. destruct x; simpl; intros ->; reflexivity. Qed.

(** A run that turns down [abc] and [42] and then quits on [ Quit ]. *)
Lemma menu_reprompts_and_quits_run :
  run (mkConsole (["abc"; "42"] ++ " Quit " :: ["1"]) []) tree0
  = Returned (mkConsole ["1"]
                (opening ++ dialogue linux ["abc"; "42"]
                 ++ [askChoice; "已退出。" +:+ nl]),
              tree0).
Proof.
  refine (proj2 (menu_reprompts_and_quits linux lower errText)
            ["abc"; "42"] " Quit " ["1"] tree0 _ _).
  - constructor; [|constructor; [|constructor]].
    + left. split; [reflexivity | exists 0, ErrSyntax; reflexivity].
    + right. split; [reflexivity|]. exists 42. split; [reflexivity | lia].
  - left. reflexivity.
Defined.

(** A run that selects console 1 on a tree that holds it and its logo. *)
Lemma valid_selection_steps_run :
  let fs1 := treeAfter (copyHere linux (consoleDir mymini) tree0) tree0 in
  let fs2 := treeAfter (copyHere linux (logoDir mymini) fs1) fs1 in
  let fs3 := (Create (Join [".cn"]) fs2).2 in
  run (mkConsole (["x"] ++ "1" :: []) []) tree0
  = Returned (mkConsole []
                (opening ++ dialogue linux ["x"] ++ [askChoice; msgCopying mymini]
                 ++ [msgCopyingLogo mymini] ++ [createdCN +:+ nl; msgDone mymini]),
              fs3) /\
  fs3 !! [".cn"] = Some (File EmptyString) /\
  fs3 !! ["dtb"; "rk3326.dtb"] = Some (File "dtb") /\
  fs3 !! ["logo.bmp"] = Some (File "bmp").
Proof.
  intros fs1 fs2 fs3. split.
  - refine (valid_selection_steps linux lower errText 1 mymini ["x"] "1" [] tree0
              fs1 [msgCopyingLogo mymini] fs2 fs3 _ _ _ _ _ _).
    + constructor; [|constructor].
      left. split; [reflexivity | exists 0, ErrSyntax; reflexivity].
    + split; [reflexivity | split; [reflexivity | lia]].
    + reflexivity.
    + apply treeAfter_eq. vm_compute. reflexivity.
    + refine (logo_copied linux mymini fs1 Dir fs2 _ _).
      * vm_compute. reflexivity.
      * apply treeAfter_eq. vm_compute. reflexivity.
    + apply pair_eq. vm_compute. reflexivity.
  - vm_compute. repeat split.
Defined.

(** C1, as the specification states it, fails on a tree without the
    console's directory: 1 is a valid selection, the steps as listed would
    leave [.cn] behind, and the program leaves the tree empty. *)
Lemma valid_selection_missing_console :
  selects linux lower 1 "1" /\
  treeOf (run (mkConsole ["1"] []) ∅) = Some ∅ /\
  listedSteps linux mymini ∅ !! [".cn"] = Some (File EmptyString) /\
  (∅ : FS) !! [".cn"] = None.
Proof.
  split; [split; [reflexivity | split; [reflexivity | lia]]|].
  vm_compute. repeat split.
Qed.

(** Selecting 6 and selecting 7 on a tree that holds [consoles/dc40v]. *)
Lemma options_6_7_same_copies_run :
  exists fs',
    treeOf (run (mkConsole ([] ++ "6" :: []) []) tree67) = Some fs' /\
    treeOf (run (mkConsole ([] ++ "7" :: []) []) tree67) = Some fs'.
Proof.
  refine (proj2 (proj2 (options_6_7_same_copies linux lower errText
                          [] "6" "7" [] tree67 _ _ _))).
  - constructor.
  - split; [reflexivity | split; [reflexivity | lia]].
  - split; [reflexivity | split; [reflexivity | lia]].
Defined.

(** The copy of console 1 fails on [treeClash]: the report is printed, the
    tree is the one the failed copy left, and there is no [.cn]. *)
Lemma copy_error_skips_createCNFile_run :
  let fs1 := treeAfter (copyHere linux (consoleDir mymini) treeClash) treeClash in
  main_steps linux errText mymini (mkConsole [] []) treeClash
  = Returned (mkConsole [] ([] ++ [msgCopying mymini; msgCopyFailed errText EISDIR]), fs1) /\
  fs1 !! [".cn"] = None.
Proof.
  intros fs1. split.
  - refine (proj1 (copy_error_skips_createCNFile linux errText mymini
                     (mkConsole [] []) treeClash
                     [msgCopying mymini; msgCopyFailed errText EISDIR] fs1 _)).
    refine (console_copy_fails linux errText mymini treeClash EISDIR fs1 _ _).
    + vm_compute. reflexivity.
    + apply treeAfter_eq. vm_compute. reflexivity.
  - vm_compute. reflexivity.
Defined.

(** C9, as the specification states it, fails on [treeClashCN]: the run
    reports that the copy failed, and it leaves a [.cn] that was not there
    before, copied from the console's directory. *)
Lemma copy_error_leaves_copied_cn :
  last (outputOf (run (mkConsole ["1"] []) treeClashCN))
    = Some (msgCopyFailed errText EISDIR) /\
  treeClashCN !! [".cn"] = None /\
  (treeOf (run (mkConsole ["1"] []) treeClashCN) ≫= (.!! [".cn"]))
    = Some (File "zh").
Proof. vm_compute. repeat split. Qed.

Lemma treeOf_eq (r : exec (Console * FS)) :
  match treeOf r with Some _ => true | None => false end = true ->
  treeOf r = Some (default ∅ (treeOf r)).
Proof. destruct (treeOf r); [reflexivity | discriminate]. Qed.

(** The input ends after one line that was turned down. *)
Lemma input_end_reports_EOF_run :
  run (mkConsole ["abc"] []) tree0
  = Returned (mkConsole []
                (opening ++ dialogue linux ["abc"] ++ [askChoice; "Error: EOF" +:+ nl]),
              tree0).
Proof.
  refine (input_end_reports_EOF linux lower errText ["abc"] tree0 _).
  constructor; [|constructor].
  left. split; [reflexivity | exists 0, ErrSyntax; reflexivity].
Defined.

(** The copy brings a [.cn] that holds [zh]; the run ends with the report
    of completion and [.cn] is empty. *)
Lemma completion_leaves_empty_cn_run :
  treeOf (main_steps linux errText mymini (mkConsole [] []) treeShipsCN) ≫= (.!! [".cn"])
  = Some (File EmptyString).
Proof.
  refine (completion_leaves_empty_cn linux errText mymini (mkConsole [] []) treeShipsCN _).
  vm_compute. reflexivity.
Defined.

(** After console 1 is copied, its source is still there. *)
Lemma main_keeps_entries_run :
  exists n', default ∅ (treeOf (run (mkConsole ["1"] []) tree0))
               !! ["consoles"; "mymini"; "boot.ini"] = Some n' /\
             IsDir n' = IsDir (File "boot").
Proof.
  refine (main_keeps_entries linux lower errText (mkConsole ["1"] []) tree0 _ _
            ["consoles"; "mymini"; "boot.ini"] (File "boot") _).
  - apply treeOf_eq. vm_compute. reflexivity.
  - vm_compute. reflexivity.
Defined.

(** The first line of the menu and the number 1. *)
Lemma menu_number_selects_run :
  In ("  1. XiFan Mymini" +:+ nl) menuLines /\
  run (mkConsole ["1"] []) tree0
  = main_steps linux errText mymini (mkConsole [] (opening ++ [askChoice])) tree0.
Proof.
  refine (menu_number_selects linux lower errText 0 mymini [] tree0 _). reflexivity.
Defined.

(** Console 1 copied out of [tree0]: the file below [dtb] is in the working
    directory with its bytes, and the source is where it was. *)
Lemma copyHere_overlay_run :
  treeAfter (copyHere linux (consoleDir mymini) tree0) tree0 !! ["dtb"; "rk3326.dtb"]
  = Some (File "dtb") /\
  treeAfter (copyHere linux (consoleDir mymini) tree0) tree0
    !! ["consoles"; "mymini"; "dtb"; "rk3326.dtb"]
  = Some (File "dtb").
Proof.
  pose proof (copyHere_overlay linux (consoleDir mymini) tree0
                (treeAfter (copyHere linux (consoleDir mymini) tree0) tree0)) as H.
  assert (H1 : consoleDir mymini <> []) by discriminate.
  assert (H2 : forall k, tree0 !! (consoleDir mymini ++ consoleDir mymini ++ k) = None).
  { apply holdsOwnPath_false. vm_compute. reflexivity. }
  assert (H3 : copyHere linux (consoleDir mymini) tree0
               = Some (None, treeAfter (copyHere linux (consoleDir mymini) tree0) tree0)).
  { apply treeAfter_eq. vm_compute. reflexivity. }
  split; (etransitivity; [apply (H H1 H2 H3) | vm_compute; reflexivity]).
Defined.

End DtbSelectorRuns.

(** * Properties of the SSH-over-OTG script *)

Section OtgSshSpec.
Import OtgSsh.

Variable m : Machine.

Local Abbreviation run := (OtgSsh.run m).
Local Abbreviation capture := (OtgSsh.capture m).
Local Abbreviation last_pid := (OtgSsh.last_pid m).
Local Abbreviation wait_usb0 := (OtgSsh.wait_usb0 m).
Local Abbreviation await_usb0 := (OtgSsh.await_usb0 m).
Local Abbreviation cleanup_usb_gadget := (OtgSsh.cleanup_usb_gadget m).
Local Abbreviation configure_usb_gadget := (OtgSsh.configure_usb_gadget m).
Local Abbreviation configure_network := (OtgSsh.configure_network m).
Local Abbreviation start_dhcp_service := (OtgSsh.start_dhcp_service m).
Local Abbreviation start_ssh_service := (OtgSsh.start_ssh_service m).
Local Abbreviation bring_up := (OtgSsh.bring_up m).

(** *** Commands and the events they leave

    [emits x Q]: from every state, [x] adds some events [E] to the history,
    and its result and [E] satisfy [Q]. [quiet P x]: every event that [x]
    adds satisfies [P]. *)

Definition emits {A} (x : Sh A) (Q : A -> list event -> Prop) : Prop :=
  forall s, exists E, hist (x s).2 = hist s ++ E /\ Q (x s).1 E.

Definition quiet {A} (P : event -> Prop) (x : Sh A) : Prop :=
  emits x (fun _ E => Forall P E).

(** An event whose command passes the test [f]. *)
Definition named (f : string -> bool) (e : event) : Prop := f e.1 = true.

Lemma emits_bind {A B} (x : Sh A) (f : A -> Sh B)
    (Q1 : A -> list event -> Prop) (Q2 : A -> B -> list event -> Prop)
    (Q : B -> list event -> Prop) :
  emits x Q1 -> (forall a, emits (f a) (Q2 a)) ->
  (forall a b E1 E2, Q1 a E1 -> Q2 a b E2 -> Q b (E1 ++ E2)) ->
  emits (x ≫= f) Q.
Proof.
  intros Hx Hf HQ s. unfold mbind, Sh_bind.
  destruct (Hx s) as (E1 & H1 & HQ1). destruct (x s) as [a s1]. simpl in *.
  destruct (Hf a s1) as (E2 & H2 & HQ2).
  exists (E1 ++ E2). split.
  - rewrite H2, H1, app_assoc. reflexivity.
  - eapply HQ; eassumption.
Qed.


Lemma quiet_ret {A} P (a : A) : quiet P (mret a).
Proof. intros s. exists []. simpl. rewrite app_nil_r. auto. Qed.

Lemma quiet_bind {A B} P (x : Sh A) (f : A -> Sh B) :
  quiet P x -> (forall a, quiet P (f a)) -> quiet P (x ≫= f).
Proof.
  intros Hx Hf.
  apply emits_bind with
    (Q1 := fun (_ : A) E => Forall P E) (Q2 := fun (_ : A) (_ : B) E => Forall P E);
    [exact Hx | exact Hf |].
  intros a b E1 E2 H1 H2. apply Forall_app. auto.
Qed.

Lemma quiet_if {A} P (b : bool) (x y : Sh A) :
  quiet P x -> quiet P y -> quiet P (if b then x else y).
Proof. destruct b; auto. Qed.

Lemma quiet_record P e : P e -> quiet P (record_event e).
Proof. intros He s. exists [e]. simpl. auto. Qed.

Lemma quiet_run f cmd : f cmd = true -> quiet (named f) (run cmd).
Proof. intros Hc s. eexists [_]. simpl. split; [reflexivity|]. repeat constructor. exact Hc. Qed.

Lemma quiet_capture f cmd : f cmd = true -> quiet (named f) (capture cmd).
Proof. intros Hc s. eexists [_]. simpl. split; [reflexivity|]. repeat constructor. exact Hc. Qed.

Lemma quiet_last_pid P : quiet P last_pid.
Proof. intros s. exists []. simpl. rewrite app_nil_r. auto. Qed.

Lemma quiet_run_bg f cmd : f (cmd +:+ " &") = true -> quiet (named f) (run_bg cmd).
Proof. intros Hc s. eexists [_]. simpl. split; [reflexivity|]. repeat constructor. exact Hc. Qed.

Lemma quiet_call f name body :
  f name = true -> quiet (named f) body -> quiet (named f) (call name body).
Proof.
  intros Hn Hb. unfold call. apply quiet_bind; [exact Hb|]. intros r.
  apply quiet_bind; [|intros; apply quiet_ret].
  apply quiet_record. exact Hn.
Qed.

Lemma quiet_add_run_log f msg :
  f ("add_run_log " +:+ msg) = true -> quiet (named f) (add_run_log msg).
Proof.
  intros Hc. unfold add_run_log. apply quiet_call; [exact Hc|].
  intros s. exists []. simpl. rewrite app_nil_r. auto.
Qed.

Lemma quiet_or_fail P c msg rest :
  quiet P c -> quiet P (add_run_log msg) -> quiet P rest ->
  quiet P (or_fail c msg rest).
Proof.
  intros Hc Hl Hr. unfold or_fail. apply quiet_bind; [exact Hc|]. intros r.
  apply quiet_if; [exact Hr|].
  apply quiet_bind; [exact Hl | intros; apply quiet_ret].
Qed.

Lemma quiet_and_or P (a b c : Sh Z) :
  quiet P a -> quiet P b -> quiet P c -> quiet P (and_or a b c).
Proof.
  intros Ha Hb Hc. unfold and_or. apply quiet_bind; [exact Ha|]. intros r.
  apply quiet_if; [|exact Hc].
  apply quiet_bind; [exact Hb|]. intros r2. apply quiet_if; [apply quiet_ret | exact Hc].
Qed.

(** The body of the polling loop, as the script has it. *)
Lemma wait_usb0_body retry s :
  wait_usb0 retry s =
  if decide (retry < 10) then
    let '(r, s1) := run probe_usb0 s in
    if r =? 0 then (retry, s1)
    else
      let '(_, s2) :=
        add_run_log ("[WARNING] usb0 not ready (try "
                       +:+ pretty (retry + 1) +:+ "/10)") s1 in
      let '(_, s3) := run "sleep 2" s2 in
      wait_usb0 (retry + 1) s3
  else (retry, s).
Proof.
  funelim (OtgSsh.wait_usb0 m retry s).
  - destruct (decide (retry < 10)); [reflexivity | contradiction].
  - destruct (decide (retry < 10)); [contradiction | reflexivity].
Qed.

Lemma quiet_wait_usb0 f :
  f probe_usb0 = true -> f "sleep 2" = true ->
  (forall n : Z, f ("add_run_log [WARNING] usb0 not ready (try " +:+ pretty n +:+ "/10)") = true) ->
  forall retry, quiet (named f) (wait_usb0 retry).
Proof.
  intros Hp Hs Hl retry.
  remember (Z.to_nat (10 - retry)) as k eqn:Hk. revert retry Hk.
  induction k as [k IH] using lt_wf_ind. intros retry Hk s.
  rewrite wait_usb0_body. destruct (decide (retry < 10)) as [Hlt|Hge].
  2:{ exists []. simpl. rewrite app_nil_r. auto. }
  simpl. destruct (status m (hist s) probe_usb0 =? 0).
  { eexists [_]. simpl. split; [reflexivity|]. repeat constructor. exact Hp. }
  match goal with |- context [wait_usb0 (retry + 1) ?s3] =>
    destruct (IH (Z.to_nat (10 - (retry + 1))) ltac:(lia) (retry + 1) eq_refl s3)
      as (E & HE & HF) end.
  simpl in HE. eexists (_ :: _ :: _ :: E). split.
  - rewrite HE, <- !app_assoc. reflexivity.
  - repeat constructor; try assumption. apply Hl.
Qed.

(** *** The four steps leave no event of the bring-up itself *)

(** The commands by which [main] shows that a step ran and how it ended:
    the calls of the four steps and the verdicts logged after them. *)
Definition outerNames : list string := [
  "configure_usb_gadget"; "configure_network";
  "start_dhcp_service"; "start_ssh_service";
  "add_run_log [OK] USB Gadget configured";
  "add_run_log [ERROR] USB Gadget configuration failed";
  "add_run_log [OK] Network configured";
  "add_run_log [ERROR] Network configuration failed";
  "add_run_log [OK] DHCP service started";
  "add_run_log [ERROR] DHCP service start failed";
  "add_run_log [OK] SSH service started";
  "add_run_log [ERROR] SSH service start failed" ].

Definition inner (c : string) : bool := negb (existsb (String.eqb c) outerNames).

Definition notProbe (c : string) : bool := negb (String.eqb c probe_usb0).

(** One step of the proof that a command is quiet, read off its shape; the
    test on each command's text is decided by evaluation. *)
Ltac quiet_step :=
  lazymatch goal with
  | |- quiet _ (mret _) => apply quiet_ret
  | |- quiet _ (if _ then _ else _) => apply quiet_if
  | |- quiet _ (OtgSsh.last_pid _) => apply quiet_last_pid
  | |- quiet _ (OtgSsh.run _ _) => apply quiet_run; reflexivity
  | |- quiet _ (OtgSsh.capture _ _) => apply quiet_capture; reflexivity
  | |- quiet _ (run_bg _) => apply quiet_run_bg; reflexivity
  | |- quiet _ (add_run_log _) => apply quiet_add_run_log; reflexivity
  | |- quiet _ (OtgSsh.wait_usb0 _ _) =>
      apply quiet_wait_usb0; [reflexivity | reflexivity | intros; reflexivity]
  | |- quiet _ (or_fail _ _ _) => apply quiet_or_fail
  | |- quiet _ (and_or _ _ _) => apply quiet_and_or
  | |- quiet _ (call _ _) => apply quiet_call; [reflexivity|]
  | |- quiet _ (_ ≫= _) => apply quiet_bind; [|intros ?]
  end.

Ltac quiet_tac := cbv zeta; repeat quiet_step.

Lemma quiet_cleanup_usb_gadget f :
  (forall c, notProbe c = true -> inner c = true -> f c = true) ->
  quiet (named f) cleanup_usb_gadget.
Proof.
  intros Hf. unfold OtgSsh.cleanup_usb_gadget.
  apply quiet_call; [apply Hf; reflexivity|].
  repeat lazymatch goal with
    | |- quiet _ (mret _) => apply quiet_ret
    | |- quiet _ (if _ then _ else _) => apply quiet_if
    | |- quiet _ (OtgSsh.run _ _) => apply quiet_run; apply Hf; reflexivity
    | |- quiet _ (_ ≫= _) => apply quiet_bind; [|intros ?]
    end.
Qed.

Lemma inner_await_usb0 : quiet (named inner) await_usb0.
Proof. unfold OtgSsh.await_usb0. quiet_tac. Qed.

(** A call of a function whose body is quiet: the events of the body, then
    the call itself with the status it returned. *)
Lemma emits_call P name body :
  quiet P body ->
  emits (call name body)
    (fun r E => exists E', E = E' ++ [(name, r)] /\ Forall P E').
Proof.
  intros Hb. unfold call.
  eapply emits_bind with
    (Q1 := fun (_ : Z) E => Forall P E)
    (Q2 := fun (a b : Z) E => a = b /\ E = [(name, a)]).
  - exact Hb.
  - intros a s. eexists [_]. simpl. split; reflexivity || auto.
  - intros a b E1 E2 H1 [-> ->]. eauto.
Qed.

Lemma inner_configure_usb_gadget :
  emits configure_usb_gadget
    (fun r E => exists E', E = E' ++ [("configure_usb_gadget", r)] /\ Forall (named inner) E').
Proof.
  apply emits_call.
  pose proof (quiet_cleanup_usb_gadget inner (fun c _ H => H)).
  pose proof inner_await_usb0.
  quiet_tac; assumption.
Qed.

Lemma inner_configure_network :
  emits configure_network
    (fun r E => exists E', E = E' ++ [("configure_network", r)] /\ Forall (named inner) E').
Proof. apply emits_call. quiet_tac. Qed.

Lemma inner_start_dhcp_service :
  emits start_dhcp_service
    (fun r E => exists E', E = E' ++ [("start_dhcp_service", r)] /\ Forall (named inner) E').
Proof. apply emits_call. quiet_tac. Qed.

Lemma inner_start_ssh_service :
  emits start_ssh_service
    (fun r E => exists E', E = E' ++ [("start_ssh_service", r)] /\ Forall (named inner) E').
Proof.
  apply emits_call. unfold ssh_confirm. cbn [ssh_checks ssh_start]. unfold ssh_check.
  quiet_tac.
Qed.

(** The verdict that [main] logs after a step that returned [r]. *)
Definition verdict (ok err : string) (r : Z) : event :=
  ("add_run_log " +:+ (if r =? 0 then ok else err), 0).

(** One line [step && add_run_log ok || add_run_log err] of [main]: the
    step runs, its verdict is logged, and the line ends with status 0
    whatever the step returned. *)
Lemma line_runs (step : Sh Z) name ok err s :
  emits step (fun r E => exists E', E = E' ++ [(name, r)] /\ Forall (named inner) E') ->
  exists r E' s',
    and_or step (add_run_log ok) (add_run_log err) s = (0, s') /\
    hist s' = hist s ++ E' ++ [(name, r); verdict ok err r] /\
    Forall (named inner) E'.
Proof.
  intros Hstep. destruct (Hstep s) as (E & HE & E' & -> & Hin).
  unfold and_or, mbind, Sh_bind. destruct (step s) as [r s1]. simpl in *.
  exists r, E'. unfold verdict.
  destruct (r =? 0); simpl; eexists; (split; [reflexivity|]); simpl;
    rewrite HE, <- !app_assoc; auto.
Qed.

Lemma errexit_passes (x : Sh Z) (rest : Sh (option Z)) s s' :
  x s = (0, s') -> errexit x rest s = rest s'.
Proof. intros H. unfold errexit, mbind, Sh_bind. rewrite H. reflexivity. Qed.


Lemma call_status name (body : Sh Z) s : (call name body s).1 = (body s).1.
Proof. unfold call, mbind, Sh_bind. destruct (body s). reflexivity. Qed.

Lemma setup_gamepad_support_status SCRIPT_NAME s :
  (setup_gamepad_support m SCRIPT_NAME s).1 = 0.
Proof.
  unfold setup_gamepad_support. rewrite call_status.
  unfold mbind at 1. unfold Sh_bind at 1.
  match goal with |- (let '(_, _) := ?x in _).1 = _ => destruct x end.
  reflexivity.
Qed.

(** [main] reaches the bring-up whenever [init_terminal], which runs under
    [set -e], gets through. *)
Lemma main_reaches_bring_up SCRIPT_NAME s s1 :
  init_terminal m s = (None, s1) ->
  OtgSsh.main m SCRIPT_NAME s
  = bring_up (log ← (fun s => (RUN_LOG s, s));
              errexit (safe_msgbox m (connection_info +:+ "\n" +:+ log) "12" "70")
                      (mret None))
             (setup_gamepad_support m SCRIPT_NAME s1).2.
Proof.
  intros Hi. unfold OtgSsh.main. unfold mbind at 1. unfold Sh_bind at 1. rewrite Hi.
  unfold errexit at 1. unfold mbind at 1. unfold Sh_bind at 1.
  pose proof (setup_gamepad_support_status SCRIPT_NAME s1) as Hs.
  destruct (setup_gamepad_support m SCRIPT_NAME s1) as [r s2]. simpl in Hs. subst r.
  reflexivity.
Qed.

(** *** Waiting for usb0 *)

Definition is_probe (e : event) : bool := String.eqb e.1 probe_usb0.

(** How many times the history looks for [usb0]. *)
Definition polls (E : list event) : nat := length (List.filter is_probe E).





















(** *** Configuring the network *)

(** The events of a run from the state [s] to the state [s']. *)
Definition since (s s' : Shell) : list event := drop (length (hist s)) (hist s').

(** The status with which the command [c] ended in [E], when it was run. *)
Definition statusOf (c : string) (E : list event) : option Z :=
  snd <$> List.find (fun e => String.eqb e.1 c) E.

Definition ran (c : string) (E : list event) : Prop := is_Some (statusOf c E).
Definition succeeded (c : string) (E : list event) : Prop := statusOf c E = Some 0.



Lemma since_app (s s' : Shell) E : hist s' = hist s ++ E -> since s s' = E.
Proof. intros H. unfold since. rewrite H. apply drop_app_length. Qed.


(** *** The whole of [main] *)

Lemma bring_up_passes (rest : Sh (option Z)) s :
  exists s' E, bring_up rest s = rest s' /\ hist s' = hist s ++ E.
Proof.
  unfold OtgSsh.bring_up.
  destruct (line_runs _ _ "[OK] USB Gadget configured"
              "[ERROR] USB Gadget configuration failed" s inner_configure_usb_gadget)
    as (r1 & E1 & s1 & H1 & Hh1 & _).
  destruct (line_runs _ _ "[OK] Network configured"
              "[ERROR] Network configuration failed" s1 inner_configure_network)
    as (r2 & E2 & s2 & H2 & Hh2 & _).
  destruct (line_runs _ _ "[OK] DHCP service started"
              "[ERROR] DHCP service start failed" s2 inner_start_dhcp_service)
    as (r3 & E3 & s3 & H3 & Hh3 & _).
  destruct (line_runs _ _ "[OK] SSH service started"
              "[ERROR] SSH service start failed" s3 inner_start_ssh_service)
    as (r4 & E4 & s4 & H4 & Hh4 & _).
  exists s4. eexists. split.
  - rewrite (errexit_passes _ _ _ _ H1), (errexit_passes _ _ _ _ H2),
      (errexit_passes _ _ _ _ H3), (errexit_passes _ _ _ _ H4). reflexivity.
  - rewrite Hh4, Hh3, Hh2, Hh1, <- !app_assoc. reflexivity.
Qed.

Lemma quiet_builtin f cmd : f cmd = true -> quiet (named f) (builtin cmd).
Proof.
  intros Hc. unfold builtin. apply quiet_bind; [|intros; apply quiet_ret].
  apply quiet_record. exact Hc.
Qed.

Ltac quiet_more :=
  cbv zeta;
  repeat lazymatch goal with
    | |- quiet _ (builtin _) => apply quiet_builtin; reflexivity
    | |- quiet _ (record_event _) => apply quiet_record; reflexivity
    | |- _ => quiet_step
    end.

Lemma setup_gamepad_support_events SCRIPT_NAME s :
  exists E, hist (setup_gamepad_support m SCRIPT_NAME s).2 = hist s ++ E.
Proof.
  assert (H : emits (setup_gamepad_support m SCRIPT_NAME)
                (fun r E => exists E', E = E' ++ [("setup_gamepad_support", r)] /\
                                       Forall (named (fun _ => true)) E')).
  { apply emits_call. quiet_more. }
  destruct (H s) as (E & HE & _). eauto.
Qed.

(** The command of [safe_msgbox "$text" 12 70]. *)
Definition dialog_command (text : string) : string :=
  "dialog --backtitle SSH over OTG for ArkOS by AlternativeRoom4499 & carrothu-cn"
  +:+ " --title SSH over OTG for ArkOS --msgbox " +:+ text +:+ " 12 70 > " +:+ CURR_TTY.

(** X7. [main] stops early in [init_terminal] only. When that fails, under
    [set -e], the shell exits with its status and none of the steps has
    run. When it is through, [main] runs to its end whatever the steps
    return: the last thing it does is to show the message box, with the
    connection hints and the log as it stands then. *)
Theorem main_stops_only_in_init_terminal SCRIPT_NAME s :
  (forall st s1, init_terminal m s = (Some st, s1) ->
     OtgSsh.main m SCRIPT_NAME s = (Some st, s1)) /\
  (forall s1, init_terminal m s = (None, s1) ->
     exists E st s',
       OtgSsh.main m SCRIPT_NAME s = (None, s') /\
       hist s' = hist s1 ++ E
                 ++ [(dialog_command (connection_info +:+ "\n" +:+ RUN_LOG s'), st);
                     ("safe_msgbox", 0)]).
Proof.
  split.
  - intros st s1 Hi. unfold OtgSsh.main. unfold mbind at 1. unfold Sh_bind at 1.
    rewrite Hi. reflexivity.
  - intros s1 Hi. rewrite (main_reaches_bring_up _ _ _ Hi).
    destruct (setup_gamepad_support_events SCRIPT_NAME s1) as [E0 HE0].
    destruct (bring_up_passes
                (log ← (fun s => (RUN_LOG s, s));
                 errexit (safe_msgbox m (connection_info +:+ "\n" +:+ log) "12" "70")
                         (mret None))
                (setup_gamepad_support m SCRIPT_NAME s1).2) as (s2 & E & -> & HE).
    exists (E0 ++ E). eexists. eexists. split; [reflexivity|].
    simpl. rewrite HE, HE0, <- !app_assoc. reflexivity.
Qed.

(** *** The DHCP and SSH services *)



(** The status with which the command [c] ended when it was last run. *)
Definition lastStatus (c : string) (E : list event) : option Z := statusOf c (rev E).

(** Running the model of a function: every status that decides a branch is
    taken apart, the other statuses and outputs stand for themselves. *)
Ltac sh_reduce :=
  lazy beta iota zeta delta [hist RUN_LOG fst snd negb];
  repeat (progress (try change (0 =? 0) with true; try change (1 =? 0) with false);
          lazy beta iota zeta delta [hist RUN_LOG fst snd negb]).

Ltac sh_clean h :=
  lazymatch h with
  | context [status m _ _] => fail
  | context [lastpid m _] => fail
  | context [output m _ _] => fail
  | _ => idtac
  end.

Ltac sh_branches :=
  sh_reduce;
  repeat match goal with
    | n : ?z <> 0 |- context [?z =? 0] =>
        rewrite (proj2 (Z.eqb_neq z 0) n); sh_reduce
    | |- context [status m ?h ?c] =>
        sh_clean h;
        let z := fresh "z" in
        let Hz := fresh "Hz" in
        remember (status m h c) as z eqn:Hz; clear Hz;
        try (lazymatch goal with |- context [z =? 0] => idtac end;
             destruct (Z.eqb_spec z 0); [subst z|]);
        sh_reduce
    | |- context [lastpid m ?h] =>
        sh_clean h; generalize (lastpid m h); intros ?; sh_reduce
    | |- context [output m ?h ?c] =>
        sh_clean h; generalize (output m h c); intros ?; sh_reduce
    end.

Ltac sh_abstract :=
  repeat match goal with
    | |- context [lastpid m ?h] => generalize (lastpid m h); intros ?
    | |- context [output m ?h ?c] => generalize (output m h c); intros ?
    | |- context [status m ?h ?c] => generalize (status m h c); intros ?
    end.

Ltac sh_facts :=
  repeat split; intros;
  repeat match goal with
    | H : exists _, _ |- _ => destruct H
    | H : _ /\ _ |- _ => destruct H
    | H : _ \/ _ |- _ => destruct H
    | H : Some _ = Some _ |- _ => inversion H; clear H; subst
    | H : Some _ = None |- _ => discriminate H
    | H : None = Some _ |- _ => discriminate H
    end; try congruence; try tauto; eauto.





(** One of the four looks at the start found an SSH server: the first
    [pgrep -x] or [systemctl is-active] of [sshd] or [ssh]. *)
Definition found_running (E : list event) : Prop :=
  succeeded "pgrep -x sshd" E \/ succeeded "systemctl is-active --quiet sshd" E \/
  succeeded "pgrep -x ssh" E \/ succeeded "systemctl is-active --quiet ssh" E.

(** A command that starts a server was run. *)
Definition starts_server (E : list event) : Prop :=
  ran "systemctl start ssh" E \/ ran "systemctl start sshd" E \/
  ran "service ssh start" E \/ ran "service sshd start" E \/
  ran "/usr/sbin/sshd -D &" E.

(** The last look at [sshd], whichever it was, found it. *)
Definition confirmed (E : list event) : Prop :=
  lastStatus "pgrep -x sshd" E = Some 0 \/
  lastStatus "systemctl is-active --quiet ssh" E = Some 0 \/
  lastStatus "systemctl is-active --quiet sshd" E = Some 0.

Definition ssh_outcome (r : Z) (E : list event) : Prop :=
  (r = 0 \/ r = 1) /\
  (found_running E -> ~ starts_server E) /\
  (~ found_running E ->
   ran "systemctl start ssh" E /\
   (ran "/usr/sbin/sshd -D &" E <-> succeeded "[ -f /usr/sbin/sshd ]" E)) /\
  (r = 0 <-> confirmed E).

(** X9. [start_ssh_service] starts nothing when one of its looks at the start
    finds a server. When none does, it tries the start commands in turn
    and then, whether or not one of them worked, starts [/usr/sbin/sshd -D]
    itself if that file is there. It returns 0 exactly when the last look
    it took at [sshd] found the server, and 1 otherwise. *)
Theorem start_ssh_service_outcomes (s : Shell) :
  hist (start_ssh_service s).2 = hist s ++ since s (start_ssh_service s).2 /\
  ssh_outcome (start_ssh_service s).1 (since s (start_ssh_service s).2).
Proof.
  assert (H : exists E, hist (start_ssh_service s).2 = hist s ++ E /\
                        ssh_outcome (start_ssh_service s).1 E).
  { destruct s as [h0 log0].
    pose (Q := fun rs : Z * Shell =>
                 exists E, hist rs.2 = h0 ++ E /\ ssh_outcome rs.1 E).
    change (Q (start_ssh_service (mkShell h0 log0))).
    unfold OtgSsh.start_ssh_service, ssh_confirm. cbn [ssh_checks ssh_start].
    unfold ssh_check, call, OtgSsh.run, run_bg, OtgSsh.last_pid,
      add_run_log, call, record_event, mbind, Sh_bind, mret, Sh_ret.
    sh_branches.
    all: subst Q; cbn beta; cbn [fst snd hist].
    all: rewrite <- ?app_assoc; eexists; (split; [reflexivity|]).
    all: cbn [app]; sh_abstract.
    all: vm_compute; sh_facts. }
  destruct H as (E & HE & HO). rewrite (since_app _ _ _ HE). split; assumption.
Qed.

(** *** The outcomes of the gadget set-up *)





















(** *** The key mapper *)





(** *** The script and its trap *)






End OtgSshSpec.

(** The script on sample machines. *)

Section OtgSshRuns.
Import OtgSsh Samples.

(** The wait on a device on which [usb0] shows up at the third look, and
    on one on which it never does. *)
Example configure_usb_gadget_third_look :
  (configure_usb_gadget thirdLook shell0).1 = 0 /\
  polls (hist (configure_usb_gadget thirdLook shell0).2) = 3%nat.
Proof. vm_compute. split; reflexivity. Qed.

Example configure_usb_gadget_no_usb0 :
  (configure_usb_gadget noUsb0 shell0).1 = 1 /\
  polls (hist (configure_usb_gadget noUsb0 shell0).2) = 10%nat.
Proof. vm_compute. split; reflexivity. Qed.

(** The steps and their verdicts in a whole run on the second device:
    every step is called though the first two fail. *)
Example main_no_usb0 :
  (OtgSsh.main noUsb0 "otg.sh" shell0).1 = None /\
  List.filter (fun e : event => negb (inner e.1))
    (hist (OtgSsh.main noUsb0 "otg.sh" shell0).2)
  = [("configure_usb_gadget", 1);
     ("add_run_log [ERROR] USB Gadget configuration failed", 0);
     ("configure_network", 1);
     ("add_run_log [ERROR] Network configuration failed", 0);
     ("start_dhcp_service", 0); ("add_run_log [OK] DHCP service started", 0);
     ("start_ssh_service", 0); ("add_run_log [OK] SSH service started", 0)].
Proof. vm_compute. split; reflexivity. Qed.


(** The script as root, where the gadget is cleaned once before it is set
    up and once in the trap, and as another user. *)
Example script_root_run :
  (script rootDevice "otg.sh" shell0).1 = 0 /\
  List.filter (fun e : event =>
                 existsb (String.eqb e.1)
                   ["safe_msgbox"; "stop_dhcp_service"; "cleanup_usb_gadget"; "cleanup"])
    (hist (script rootDevice "otg.sh" shell0).2)
  = [("cleanup_usb_gadget", 0); ("safe_msgbox", 0);
     ("stop_dhcp_service", 0); ("cleanup_usb_gadget", 0); ("cleanup", 0)].
Proof. vm_compute. split; reflexivity. Qed.

Example script_other_user_run :
  hist (script noUsb0 "otg.sh" shell0).2
  = [("[ $(id -u) -ne 0 ]", 0); ("exec sudo $0 $@", 0)].
Proof. vm_compute. reflexivity. Qed.

End OtgSshRuns.

(** * Properties of the key script *)

Section AdcKeysSpec.
Import GoRuntime AdcKeys.

(** ** Strings *)

Lemma append_cons (x : ascii) (a b : string) : String x a +:+ b = String x (a +:+ b).
Proof. reflexivity. Qed.

Lemma append_nil_l (b : string) : EmptyString +:+ b = b.
Proof. reflexivity. Qed.

Lemma append_assoc (a b c : string) : (a +:+ b) +:+ c = a +:+ (b +:+ c).
Proof.
  induction a as [|x a IH]; [reflexivity|]. rewrite !append_cons, IH. reflexivity.
Qed.

Lemma append_nil_r (a : string) : a +:+ EmptyString = a.
Proof.
  induction a as [|x a IH]; [reflexivity|]. rewrite append_cons, IH. reflexivity.
Qed.

Lemma string_rev_append_app (s acc : string) :
  string_rev_append s acc = string_rev s +:+ acc.
Proof.
  unfold string_rev. revert acc.
  induction s as [|c s IH]; intros acc; cbn [string_rev_append]; [reflexivity|].
  rewrite (IH (String c acc)), (IH (String c EmptyString)), append_assoc. reflexivity.
Qed.

Lemma string_rev_cons (c : ascii) (s : string) :
  string_rev (String c s) = string_rev s +:+ String c EmptyString.
Proof. unfold string_rev at 1. cbn [string_rev_append]. apply string_rev_append_app. Qed.

Lemma string_rev_app (a b : string) :
  string_rev (a +:+ b) = string_rev b +:+ string_rev a.
Proof.
  induction a as [|c a IH].
  - rewrite append_nil_l. symmetry. apply append_nil_r.
  - rewrite append_cons, !string_rev_cons, IH, append_assoc. reflexivity.
Qed.

Lemma string_rev_involutive (s : string) : string_rev (string_rev s) = s.
Proof.
  induction s as [|c s IH]; [reflexivity|].
  rewrite string_rev_cons, string_rev_app, IH. reflexivity.
Qed.

Lemma drop_while_app f (u : string) (p : ascii) (v : string) :
  f p = false ->
  drop_while f (u +:+ String p v) = drop_while f u +:+ String p v.
Proof.
  intros Hp. induction u as [|c u IH].
  - rewrite append_nil_l. cbn [drop_while]. rewrite Hp. reflexivity.
  - rewrite append_cons. cbn [drop_while]. destruct (f c); [exact IH | reflexivity].
Qed.

Lemma drop_while_suffix f (s : string) : exists t, s = t +:+ drop_while f s.
Proof.
  induction s as [|c s [t IH]]; cbn [drop_while].
  - exists EmptyString. reflexivity.
  - destruct (f c).
    + exists (String c t). rewrite append_cons, <- IH. reflexivity.
    + exists EmptyString. reflexivity.
Qed.

Lemma drop_end_app f (x : string) (p : ascii) (b : string) :
  f p = false ->
  drop_end f (x +:+ String p b) = x +:+ String p (drop_end f b).
Proof.
  intros Hp. unfold drop_end.
  rewrite string_rev_app, string_rev_cons, append_assoc, append_cons, append_nil_l.
  rewrite (drop_while_app f _ p _ Hp), string_rev_app, string_rev_cons.
  rewrite !string_rev_involutive, append_assoc, append_cons, append_nil_l.
  reflexivity.
Qed.

Lemma drop_end_prefix f (s : string) : exists t, s = drop_end f s +:+ t.
Proof.
  unfold drop_end. destruct (drop_while_suffix f (string_rev s)) as [t Ht].
  exists (string_rev t). rewrite <- string_rev_app, <- Ht.
  symmetry. apply string_rev_involutive.
Qed.

(** ** [[[ $s == *"pat"* ]]] *)

Lemma prefix_spec (pat s : string) :
  String.prefix pat s = true <-> exists b, s = pat +:+ b.
Proof.
  revert s. induction pat as [|p pat IH]; intros s.
  - destruct s; (split; [intros _; eexists; reflexivity | reflexivity]).
  - destruct s as [|c s]; cbn [String.prefix].
    + split; [discriminate | intros [b Hb]; discriminate].
    + destruct (ascii_dec p c) as [->|Hne].
      * rewrite IH. split; intros [b Hb]; exists b; rewrite ?append_cons in *; congruence.
      * split; [discriminate | intros [b Hb]; rewrite append_cons in Hb; congruence].
Qed.

Lemma contains_spec (pat s : string) :
  contains pat s = true <-> exists a b, s = a +:+ pat +:+ b.
Proof.
  induction s as [|c s IH]; cbn [contains].
  - rewrite orb_false_r, prefix_spec. split.
    + intros [b Hb]. exists EmptyString, b. exact Hb.
    + intros ([|x a] & b & H); [eauto | discriminate].
  - rewrite orb_true_iff, prefix_spec, IH. split.
    + intros [[b Hb] | (a & b & H)].
      * exists EmptyString, b. exact Hb.
      * exists (String c a), b. rewrite append_cons, H. reflexivity.
    + intros ([|x a] & b & H); [left; eauto|].
      right. exists a, b. rewrite append_cons in H. congruence.
Qed.

(** A pattern whose last byte [f] does not drop. *)
Definition ends_outside (f : ascii -> bool) (pat : string) : Prop :=
  exists q l, pat = q +:+ String l EmptyString /\ f l = false.

(** A pattern whose first byte [f] does not drop. *)
Definition starts_outside (f : ascii -> bool) (pat : string) : Prop :=
  exists p q, pat = String p q /\ f p = false.

Lemma contains_drop_end f (pat s : string) :
  ends_outside f pat -> contains pat (drop_end f s) = contains pat s.
Proof.
  intros (q & l & -> & Hl). apply eq_true_iff_eq. rewrite !contains_spec. split.
  - intros (a & b & H). destruct (drop_end_prefix f s) as [t Ht].
    exists a, (b +:+ t). rewrite Ht, H, !append_assoc. reflexivity.
  - intros (a & b & ->). exists a, (drop_end f b).
    rewrite (append_assoc q), append_cons, append_nil_l, <- append_assoc.
    rewrite (drop_end_app f _ l b Hl). rewrite !append_assoc, append_cons, append_nil_l.
    reflexivity.
Qed.

Lemma contains_drop_while f (pat s : string) :
  starts_outside f pat -> contains pat (drop_while f s) = contains pat s.
Proof.
  intros (p & q & -> & Hp). induction s as [|c s IH]; [reflexivity|].
  cbn [drop_while]. destruct (f c) eqn:Hc; [|reflexivity].
  rewrite IH. cbn [contains String.prefix].
  destruct (ascii_dec p c) as [->|_]; [congruence | reflexivity].
Qed.

Lemma contains_read_r (pat raw : string) :
  starts_outside is_blank pat -> ends_outside is_blank pat ->
  contains pat (read_r raw) = contains pat raw.
Proof.
  intros Hs He. unfold read_r.
  rewrite (contains_drop_end _ _ _ He). apply contains_drop_while, Hs.
Qed.

(** A map of the bytes that neither makes nor unmakes a byte of [pat]. *)
Definition keeps (f : ascii -> ascii) (pat : string) : Prop :=
  forall c, string_forallb (fun p => Bool.eqb (Ascii.eqb p (f c)) (Ascii.eqb p c)) pat = true.

Lemma prefix_map f (pat : string) :
  keeps f pat -> forall s, String.prefix pat (string_map f s) = String.prefix pat s.
Proof.
  induction pat as [|p pat IH]; intros H s; [destruct s; reflexivity|].
  destruct s as [|c s]; [reflexivity|]. cbn [string_map String.prefix].
  pose proof (H c) as Hc. cbn [string_forallb] in Hc.
  apply andb_true_iff in Hc as [Hp _]. apply Bool.eqb_prop in Hp.
  assert (Hpat : keeps f pat).
  { intros c'. pose proof (H c') as Hc'. cbn [string_forallb] in Hc'.
    apply andb_true_iff in Hc'. tauto. }
  destruct (ascii_dec p (f c)) as [e1|n1], (ascii_dec p c) as [e2|n2].
  - apply IH, Hpat.
  - apply Ascii.eqb_eq in e1. apply Ascii.eqb_neq in n2. congruence.
  - apply Ascii.eqb_neq in n1. apply Ascii.eqb_eq in e2. congruence.
  - reflexivity.
Qed.

Lemma contains_map f (pat s : string) :
  keeps f pat -> contains pat (string_map f s) = contains pat s.
Proof.
  intros H. induction s as [|c s IH].
  - reflexivity.
  - pose proof (prefix_map f pat H (String c s)) as Hp. cbn [string_map contains] in *.
    rewrite Hp, IH. reflexivity.
Qed.

Lemma ends_outside_rev f (pat : string) (p : ascii) (q : string) :
  string_rev pat = String p q -> f p = false -> ends_outside f pat.
Proof.
  intros H Hp. exists (string_rev q), p. split; [|exact Hp].
  rewrite <- string_rev_cons, <- H. symmetry. apply string_rev_involutive.
Qed.

(** ** The table of the script *)

Inductive button := BTN_BACK | BTN_SELECT | BTN_START.

Definition button_name (b : button) : string :=
  match b with
  | BTN_BACK => "BTN_BACK"
  | BTN_SELECT => "BTN_SELECT"
  | BTN_START => "BTN_START"
  end.

(** The value of a key event as [evtest] prints it: 1 when the key goes
    down, 0 when it goes up. *)
Definition value_text (down : bool) : string :=
  if down then "value 1" else "value 0".

(** What the script is to invoke for each button and value. *)
Definition action (b : button) (down : bool) : list string :=
  match b, down with
  | BTN_BACK, true => [adckeys_py "startselect"]
  | BTN_BACK, false => []
  | BTN_SELECT, true => [adckeys_py "select_press"]
  | BTN_SELECT, false => [adckeys_py "select_release"]
  | BTN_START, true => [adckeys_py "start_press"]
  | BTN_START, false => [adckeys_py "start_release"]
  end.

(** The line names the button and the value. *)
Definition shows (b : button) (down : bool) (line : string) : bool :=
  contains (button_name b) line && contains (value_text down) line.

(** A line of [evtest] for one key event: it names one button, [b], and
    one value. *)
Definition event_line (b : button) (down : bool) (line : string) : Prop :=
  (forall b', contains (button_name b') line = true <-> b' = b) /\
  (forall d', contains (value_text d') line = true <-> d' = down).

Lemma button_name_read_r b raw :
  contains (button_name b) (read_r raw) = contains (button_name b) raw.
Proof.
  apply contains_read_r.
  - destruct b; eexists _, _; (split; [reflexivity | reflexivity]).
  - destruct b; (eapply ends_outside_rev; [reflexivity | reflexivity]).
Qed.

Lemma value_text_read_r d raw :
  contains (value_text d) (read_r raw) = contains (value_text d) raw.
Proof.
  apply contains_read_r.
  - destruct d; eexists _, _; (split; [reflexivity | reflexivity]).
  - destruct d; (eapply ends_outside_rev; [reflexivity | reflexivity]).
Qed.

(** [on_line] in terms of what the raw line names. *)
Lemma on_line_read_r raw :
  on_line (read_r raw) =
  if contains (button_name BTN_BACK) raw then
    if contains (value_text true) raw then action BTN_BACK true else []
  else if contains (button_name BTN_SELECT) raw then
    if contains (value_text true) raw then action BTN_SELECT true
    else if contains (value_text false) raw then action BTN_SELECT false
    else []
  else if contains (button_name BTN_START) raw then
    if contains (value_text true) raw then action BTN_START true
    else if contains (value_text false) raw then action BTN_START false
    else []
  else [].
Proof.
  rewrite <- (button_name_read_r BTN_BACK raw), <- (button_name_read_r BTN_SELECT raw),
    <- (button_name_read_r BTN_START raw), <- (value_text_read_r true raw),
    <- (value_text_read_r false raw).
  reflexivity.
Qed.

(** The model as the script reads it names the device exactly when the
    file does. *)
Lemma model_read (model : string) :
  contains "D007 Plus" (command_substitution (tr_nul_lf model))
  = contains "D007 Plus" model.
Proof.
  unfold command_substitution, tr_nul_lf.
  rewrite contains_drop_end by (eapply ends_outside_rev; [reflexivity | reflexivity]).
  apply contains_map.
  intros [[] [] [] [] [] [] [] []]; reflexivity.
Qed.

(** C5. On a device whose model file does not hold "D007 Plus" the script
    runs nothing; on one whose model does, it starts [evtest] and, for every
    line it reads, runs the commands of [on_line]. A line for one key event,
    one that names one button and one value as [evtest] prints them, invokes
    what the table [action] lists for them: [startselect] for BTN_BACK with
    value 1, [select_press] and [select_release] for BTN_SELECT with value 1
    and 0, [start_press] and [start_release] for BTN_START with value 1 and
    0. A line that shows none of these five pairs invokes nothing. *)
Theorem adckeys_table (model : string) (passes : list (list string)) :
  (contains "D007 Plus" model = false -> adckeys_sh model passes = []) /\
  (contains "D007 Plus" model = true ->
   adckeys_sh model passes
   = concat (map (fun lines =>
                    ("evtest --grab " +:+ DEVICE_FILE)
                    :: concat (map (fun raw => on_line (read_r raw)) lines))
                 passes)) /\
  (forall raw b down, event_line b down raw -> on_line (read_r raw) = action b down) /\
  (forall raw, (forall b down, action b down <> [] -> shows b down raw = false) ->
               on_line (read_r raw) = []).
Proof.
  unfold adckeys_sh. rewrite model_read. repeat split.
  - intros ->. reflexivity.
  - intros ->. reflexivity.
  - intros raw b down [Hb Hd]. rewrite on_line_read_r.
    pose proof (Hb BTN_BACK) as B1. pose proof (Hb BTN_SELECT) as B2.
    pose proof (Hb BTN_START) as B3.
    pose proof (Hd true) as D1. pose proof (Hd false) as D0.
    destruct (contains (button_name BTN_BACK) raw),
             (contains (button_name BTN_SELECT) raw),
             (contains (button_name BTN_START) raw),
             (contains (value_text true) raw),
             (contains (value_text false) raw);
      destruct b, down; try reflexivity; exfalso;
      intuition (discriminate || congruence).
  - intros raw H. rewrite on_line_read_r.
    assert (H1 := H BTN_BACK true ltac:(discriminate)).
    assert (H2 := H BTN_SELECT true ltac:(discriminate)).
    assert (H3 := H BTN_SELECT false ltac:(discriminate)).
    assert (H4 := H BTN_START true ltac:(discriminate)).
    assert (H5 := H BTN_START false ltac:(discriminate)).
    unfold shows in *.
    destruct (contains (button_name BTN_BACK) raw),
             (contains (button_name BTN_SELECT) raw),
             (contains (button_name BTN_START) raw),
             (contains (value_text true) raw),
             (contains (value_text false) raw);
      try reflexivity; discriminate.
Qed.

End AdcKeysSpec.

(** The script on the sample lines. *)

Section AdcKeysRuns.
Import AdcKeys Samples.

Example adckeys_sh_d007 :
  adckeys_sh d007 [keyLines]
  = [ "evtest --grab /dev/input/by-path/platform-d007-keys-event-joystick";
      "/usr/bin/python3 /usr/local/bin/adckeys.py select_press";
      "/usr/bin/python3 /usr/local/bin/adckeys.py select_release";
      "/usr/bin/python3 /usr/local/bin/adckeys.py startselect";
      "/usr/bin/python3 /usr/local/bin/adckeys.py start_press";
      "/usr/bin/python3 /usr/local/bin/adckeys.py start_release" ].
Proof. vm_compute. reflexivity. Qed.

Example adckeys_sh_r36s : adckeys_sh r36s [keyLines] = [].
Proof. vm_compute. reflexivity. Qed.

(** The line of [evtest] for BTN_SELECT going down, read with blanks around
    it, invokes [select_press]. *)
Lemma adckeys_table_run :
  on_line (read_r "  Event: time 1700000000.000001, type 1 (EV_KEY), code 314 (BTN_SELECT), value 1 ")
  = ["/usr/bin/python3 /usr/local/bin/adckeys.py select_press"].
Proof.
  refine (proj1 (proj2 (proj2 (adckeys_table d007 [keyLines]))) _ BTN_SELECT true _).
  split.
  - intros b'. destruct b'; vm_compute; split; (discriminate || reflexivity).
  - intros d'. destruct d'; vm_compute; split; (discriminate || reflexivity).
Defined.

End AdcKeysRuns.

(** * Properties of the build script *)

Section BuildScriptSpec.
Import OtgSsh BuildScript.

Variable m : Machine.




End BuildScriptSpec.

(** The build on a host where the second platform fails. *)

Section BuildScriptRuns.
Import OtgSsh BuildScript Samples.

Example build_macFails :
  (build_dtb_selector macFails [] []).1 = 2 /\
  map fst (build_dtb_selector macFails [] []).2
  = [ "echo Building: Windows 32-bit";
      "GOOS=windows GOARCH=386 go build -ldflags=-s -w -o dtb_selector_win32.exe dtb_selector.go";
      "echo Generated: dtb_selector_win32.exe";
      "echo";
      "echo Building: macOS Intel";
      "GOOS=darwin GOARCH=amd64 go build -ldflags=-s -w -o dtb_selector_macos_intel dtb_selector.go" ].
Proof. vm_compute. split; reflexivity. Qed.

Example build_clean :
  map fst (build_dtb_selector macFails ["--clean"] []).2
  = [ "rm -rf dtb_selector_win32.exe dtb_selector_win64.exe dtb_selector_macos_intel dtb_selector_macos_apple dtb_selector_linux" ].
Proof. vm_compute. reflexivity. Qed.

End BuildScriptRuns.

(** * The log of the SSH-over-OTG script *)

Section OtgSshLog.
Import OtgSsh.

Variable m : Machine.

(** The message of a call of [add_run_log], from its event. *)
Fixpoint strip (pre s : string) : option string :=
  match pre with
  | EmptyString => Some s
  | String a pre' =>
      match s with
      | EmptyString => None
      | String b s' => if Ascii.eqb a b then strip pre' s' else None
      end
  end.

Definition log_line (e : event) : string :=
  match strip "add_run_log " e.1 with
  | Some msg => "\n" +:+ msg
  | None => EmptyString
  end.

(** What the events [E] add to the log. *)
Definition logged (E : list event) : string :=
  fold_right (fun e acc => log_line e +:+ acc) EmptyString E.

(** The log after [x] is the log before it and the lines of its calls of
    [add_run_log], in their order. *)
Definition logs {A} (x : Sh A) : Prop :=
  forall s, exists E,
    hist (x s).2 = hist s ++ E /\ RUN_LOG (x s).2 = RUN_LOG s +:+ logged E.

Lemma logged_app E1 E2 : logged (E1 ++ E2) = logged E1 +:+ logged E2.
Proof.
  induction E1 as [|e E1 IH]; [reflexivity|].
  simpl. rewrite IH, append_assoc. reflexivity.
Qed.

Lemma logs_ret {A} (a : A) : logs (mret a : Sh A).
Proof. intros s. exists []. simpl. rewrite app_nil_r, append_nil_r. auto. Qed.

Lemma logs_bind {A B} (x : Sh A) (f : A -> Sh B) :
  logs x -> (forall a, logs (f a)) -> logs (x ≫= f).
Proof.
  intros Hx Hf s. unfold mbind, Sh_bind.
  destruct (Hx s) as (E1 & H1 & L1). destruct (x s) as [a s1]. simpl in *.
  destruct (Hf a s1) as (E2 & H2 & L2). exists (E1 ++ E2).
  rewrite H2, H1, L2, L1, logged_app, <- app_assoc, append_assoc. auto.
Qed.

Lemma logs_if {A} (b : bool) (x y : Sh A) : logs x -> logs y -> logs (if b then x else y).
Proof. destruct b; auto. Qed.

Lemma logs_event {A} (x : Sh A) e :
  log_line e = EmptyString ->
  (forall s, (x s).2 = mkShell (hist s ++ [e]) (RUN_LOG s)) -> logs x.
Proof.
  intros He Hx s. exists [e]. rewrite Hx. simpl. rewrite He. simpl.
  rewrite append_nil_r. auto.
Qed.

Lemma logs_record e : log_line e = EmptyString -> logs (record_event e).
Proof. intros He. apply (logs_event _ e He). reflexivity. Qed.

Lemma logs_run cmd : strip "add_run_log " cmd = None -> logs (run m cmd).
Proof.
  intros Hc s. exists [(cmd, status m (hist s) cmd)]. split; [reflexivity|].
  unfold logged, log_line. cbn [fold_right fst]. rewrite Hc.
  cbn [RUN_LOG snd]. rewrite append_nil_r. reflexivity.
Qed.

Lemma logs_capture cmd : strip "add_run_log " cmd = None -> logs (capture m cmd).
Proof.
  intros Hc s. exists [(cmd, status m (hist s) cmd)]. split; [reflexivity|].
  unfold logged, log_line. cbn [fold_right fst]. rewrite Hc.
  cbn [RUN_LOG snd]. rewrite append_nil_r. reflexivity.
Qed.

Lemma logs_last_pid : logs (last_pid m).
Proof. intros s. exists []. simpl. rewrite app_nil_r, append_nil_r. auto. Qed.

Lemma logs_get : logs (fun s : Shell => (RUN_LOG s, s)).
Proof. intros s. exists []. simpl. rewrite app_nil_r, append_nil_r. auto. Qed.

Lemma logs_call name body :
  strip "add_run_log " name = None -> logs body -> logs (call name body).
Proof.
  intros Hn Hb. unfold call. apply logs_bind; [exact Hb|]. intros r.
  apply logs_bind; [|intros; apply logs_ret].
  apply logs_record. unfold log_line. cbn [fst]. rewrite Hn. reflexivity.
Qed.

Lemma logs_add_run_log msg : logs (add_run_log msg).
Proof.
  intros s. exists [("add_run_log " +:+ msg, 0)]. split; [reflexivity|].
  simpl. rewrite append_nil_r. reflexivity.
Qed.

Lemma log_line_other c z : strip "add_run_log " c = None -> log_line (c, z) = EmptyString.
Proof. intros H. unfold log_line. cbn [fst]. rewrite H. reflexivity. Qed.

Lemma log_line_add msg z : log_line ("add_run_log " +:+ msg, z) = "\n" +:+ msg.
Proof. reflexivity. Qed.

Lemma logs_wait_usb0 : forall retry, logs (wait_usb0 m retry).
Proof.
  intros retry.
  remember (Z.to_nat (10 - retry)) as k eqn:Hk. revert retry Hk.
  induction k as [k IH] using lt_wf_ind. intros retry Hk s.
  rewrite wait_usb0_body. destruct (decide (retry < 10)) as [Hlt|Hge].
  2:{ exists []. simpl. rewrite app_nil_r, append_nil_r. auto. }
  simpl. destruct (status m (hist s) probe_usb0 =? 0).
  { eexists [_]. simpl. split; [reflexivity|]. rewrite append_nil_r. reflexivity. }
  match goal with |- context [wait_usb0 m (retry + 1) ?s3] =>
    destruct (IH (Z.to_nat (10 - (retry + 1))) ltac:(lia) (retry + 1) eq_refl s3)
      as (E & HE & HL) end.
  simpl in HE, HL. eexists (_ :: _ :: _ :: E). split.
  - rewrite HE, <- !app_assoc. reflexivity.
  - rewrite HL. cbn [logged fold_right].
    rewrite (log_line_other probe_usb0) by reflexivity.
    rewrite (log_line_other "sleep 2") by reflexivity.
    rewrite log_line_add, !append_nil_l, !append_assoc. reflexivity.
Qed.

Ltac logs_step :=
  lazymatch goal with
  | |- logs (mret _) => apply logs_ret
  | |- logs (if _ then _ else _) => apply logs_if
  | |- logs (match ?t with Some _ => _ | None => _ end) => destruct t
  | |- logs (last_pid _) => apply logs_last_pid
  | |- logs (fun s : Shell => (RUN_LOG s, s)) => apply logs_get
  | |- logs (run _ _) => apply logs_run; reflexivity
  | |- logs (capture _ _) => apply logs_capture; reflexivity
  | |- logs (record_event _) => apply logs_record; reflexivity
  | |- logs (add_run_log _) => apply logs_add_run_log
  | |- logs (wait_usb0 _ _) => apply logs_wait_usb0
  | |- logs (call _ _) => apply logs_call; [reflexivity|]
  | |- logs (_ ≫= _) => apply logs_bind; [|intros ?]
  end.

(** X13. From the start of [main] to its end, whatever the commands return, the
    log is never cleared or cut: what [main] leaves in [RUN_LOG], and shows
    in the message box, is the log it found followed by one line for each
    call of [add_run_log], in the order of the calls. *)
Theorem main_log_is_append_only SCRIPT_NAME (s : Shell) :
  exists E,
    hist (main m SCRIPT_NAME s).2 = hist s ++ E /\
    RUN_LOG (main m SCRIPT_NAME s).2 = RUN_LOG s +:+ logged E.
Proof.
  revert s. change (logs (main m SCRIPT_NAME)).
  unfold main, bring_up, init_terminal, setup_gamepad_support, safe_msgbox,
    configure_usb_gadget, await_usb0, cleanup_usb_gadget, configure_network,
    start_dhcp_service, start_ssh_service, ssh_confirm, errexit, or_fail, and_or,
    builtin, run_bg.
  cbn [ssh_checks ssh_start]. unfold ssh_check. cbv zeta.
  repeat logs_step.
Qed.

End OtgSshLog.

